(** * Nonce bookkeeping of the EVM keeper (x/evm/keeper/keeper.go)

    A shallow embedding of the pending-nonce table, the completed-nonce
    cache and the three operations on them ([CalculateNextNonce],
    [AddPendingNonce], [RemovePendingNonce]), followed by the properties
    of the nonce allocation subsystem. *)

From Stdlib Require Import NArith Ascii String List.
From Stdlib.Strings Require Import Byte.
From Stdlib Require Import DecimalString DecimalN DecimalFacts.
From stdpp Require Import gmap strings list sorting.

Local Open Scope N_scope.

(** ** Machine integers and bytes *)

(** Go's [uint64] is modelled by [N]: a value is a natural number below
    [2^64], and arithmetic wraps around. *)
Definition two64 : N := 2 ^ 64.

Definition wrap64 (n : N) : N := n mod two64.

(** Go's [int] on a 64-bit platform bounds the length of every slice. *)
Definition maxInt : N := 2 ^ 63 - 1.

#[global] Instance byte_eq_dec : EqDecision byte := Byte.byte_eq_dec.

Definition byteOfN (n : N) : byte :=
  match Byte.of_N (n mod 256) with Some b => b | None => x00 end.

(** ** Keccak-256 (golang.org/x/crypto/sha3, [NewLegacyKeccak256])

    Only used by the checksum casing of [Hex] below.  The sponge works on
    twenty-five 64-bit lanes, lane [(x, y)] at index [x + 5 * y]. *)
Module Keccak.

Definition mask64 : N := two64 - 1.

Definition rotl (w r : N) : N :=
  N.lor (N.land (N.shiftl w r) mask64) (N.shiftr w (64 - r)).

Definition lane (st : list N) (x y : nat) : N :=
  nth (x mod 5 + 5 * (y mod 5))%nat st 0.

Definition roundConstants : list N :=
  [ 0x0000000000000001; 0x0000000000008082; 0x800000000000808A;
    0x8000000080008000; 0x000000000000808B; 0x0000000080000001;
    0x8000000080008081; 0x8000000000008009; 0x000000000000008A;
    0x0000000000000088; 0x0000000080008009; 0x000000008000000A;
    0x000000008000808B; 0x800000000000008B; 0x8000000000008089;
    0x8000000000008003; 0x8000000000008002; 0x8000000000000080;
    0x000000000000800A; 0x800000008000000A; 0x8000000080008081;
    0x8000000000008080; 0x0000000080000001; 0x8000000080008008 ].

Definition rotationOffsets : list N :=
  [  0;  1; 62; 28; 27;
    36; 44;  6; 55; 20;
     3; 10; 43; 25; 39;
    41; 45; 15; 21;  8;
    18;  2; 61; 56; 14 ].

Definition theta (st : list N) : list N :=
  let C x := fold_right N.lxor 0 (map (lane st x) (seq 0 5)) in
  let D x := N.lxor (C (x + 4)%nat) (rotl (C (x + 1)%nat) 1) in
  map (fun i => N.lxor (nth i st 0) (D (i mod 5)%nat)) (seq 0 25).

Definition rhoPi (st : list N) : list N :=
  map (fun i =>
         let X := (i mod 5)%nat in
         let Y := (i / 5)%nat in
         let x := ((X + 3 * Y) mod 5)%nat in
         rotl (lane st x X) (nth (x + 5 * X)%nat rotationOffsets 0))
      (seq 0 25).

Definition chi (st : list N) : list N :=
  map (fun i =>
         let x := (i mod 5)%nat in
         let y := (i / 5)%nat in
         N.lxor (lane st x y)
                (N.land (N.lxor (lane st (x + 1) y) mask64)
                        (lane st (x + 2) y)))
      (seq 0 25).

Definition iota (rc : N) (st : list N) : list N :=
  match st with
  | [] => []
  | a :: st' => N.lxor a rc :: st'
  end.

Definition round (st : list N) (rc : N) : list N :=
  iota rc (chi (rhoPi (theta st))).

Definition permute (st : list N) : list N :=
  fold_left round roundConstants st.

Definition rate : nat := 136.

(** Legacy Keccak padding: [0x01], zeros, and [0x80] on the last byte
    of the block. *)
Definition pad (msg : list N) : list N :=
  let fill := (rate - 1 - (length msg mod rate))%nat in
  match fill with
  | O => msg ++ [0x81]
  | S k => msg ++ [0x01] ++ repeat 0 k ++ [0x80]
  end.

Definition laneOfBytes (bs : list N) : N :=
  fold_right (fun b acc => b + 256 * acc) 0 bs.

Fixpoint lanesOfBytes (n : nat) (bs : list N) : list N :=
  match n with
  | O => []
  | S n' => laneOfBytes (firstn 8 bs) :: lanesOfBytes n' (skipn 8 bs)
  end.

Definition xorBlock (st : list N) (block : list N) : list N :=
  map (fun i => N.lxor (nth i st 0) (nth i (lanesOfBytes 17 block) 0))
      (seq 0 25).

Fixpoint absorb (blocks : nat) (st : list N) (msg : list N) : list N :=
  match blocks with
  | O => st
  | S b => absorb b (permute (xorBlock st (firstn rate msg))) (skipn rate msg)
  end.

Definition bytesOfLane (w : N) : list N :=
  map (fun i => N.land (N.shiftr w (8 * N.of_nat i)) 0xFF) (seq 0 8).

Definition sum256 (msg : list byte) : list byte :=
  let padded := pad (map Byte.to_N msg) in
  let st := absorb (length padded / rate) (repeat 0 25) padded in
  map byteOfN (flat_map bytesOfLane (firstn 4 st)).

End Keccak.

(** ** Addresses and cache keys *)

(** [common.Address] is [[20]byte]. *)
Abbreviation Address := (list byte).

(** [common.HexToAddress("0x0000000000000000000000000000000000000000")] *)
Definition zeroAddress : Address := repeat x00 20.

Definition hextable : list ascii := list_ascii_of_string "0123456789abcdef".

(** [hex.Encode]: two characters of [hextable] per byte. *)
Definition hexEncode (src : list byte) : list ascii :=
  flat_map (fun v =>
              [ nth (N.to_nat (N.shiftr (Byte.to_N v) 4)) hextable "0"%char;
                nth (N.to_nat (N.land (Byte.to_N v) 0x0f)) hextable "0"%char ])
           src.

(** [Address.hex]: the characters [0x] followed by the encoded bytes. *)
Definition hex (a : Address) : list ascii :=
  list_ascii_of_string "0x" ++ hexEncode a.

(** The loop of [Address.checksumHex] from index [i] on: a letter is put
    in upper case when the matching nibble of the hash exceeds 7. *)
Fixpoint checksumLoop (hash : list byte) (i : nat) (buf : list ascii)
  : list ascii :=
  match buf with
  | [] => []
  | c :: rest =>
      let hashByte := Byte.to_N (nth ((i - 2) / 2) hash x00) in
      let hashByte :=
        if Nat.even i then N.shiftr hashByte 4 else N.land hashByte 0xf in
      (if (N_of_ascii "9" <? N_of_ascii c) && (7 <? hashByte)
       then ascii_of_N (N_of_ascii c - 32)
       else c) :: checksumLoop hash (S i) rest
  end.

Definition checksumHex (a : Address) : list ascii :=
  let buf := hex a in
  let hash := Keccak.sum256 (map byte_of_ascii (skipn 2 buf)) in
  firstn 2 buf ++ checksumLoop hash 2 (skipn 2 buf).

(** [Address.Hex]: the EIP-55 checksummed hexadecimal form. *)
Definition Hex (a : Address) : string :=
  string_of_list_ascii (checksumHex a).

(** The [%d] verb on a [uint64]: plain decimal digits. *)
Definition formatUint (n : N) : string :=
  NilEmpty.string_of_uint (N.to_uint n).

(** [nonceCacheKey]: [fmt.Sprintf("%s|%d", addr.Hex(), nonce)]. *)
Definition nonceCacheKey (addr : Address) (nonce : N) : string :=
  String.append (Hex addr) (String.append "|" (formatUint nonce)).

(** ** The completed-nonce cache

    [lru.LRU[string, bool]] of hashicorp/golang-lru/v2/simplelru.  The
    keeper only ever stores the value [true], and never reads it, so an
    entry is represented by its key. *)

(** Modelled from the spec: the Completed Nonce Cache of section 4.2 (the
    simplelru package is an external dependency, its code is not among
    the keeper's sources): a capacity [size] and the entries in recency
    order, the most recently used one first. *)
Record LRU : Type := mkLRU { size : N; evictList : list string }.

(** Modelled from the spec: constructor of the bounded cache (simplelru's
    [NewLRU], an external dependency); a capacity of zero is the error
    that [NewKeeper] turns into a panic. *)
Definition NewLRU (sz : N) : option LRU :=
  if sz =? 0 then None else Some (mkLRU sz []).

(** Modelled from the spec: section 4.2, Add (simplelru's [Add], an
    external dependency): "inserts the pair; if at capacity, evicts the
    least-recently-accessed pair first".  A key that is already present is
    not duplicated; it becomes the most recently used one. *)
Definition Add (c : LRU) (key : string) : LRU :=
  if bool_decide (key ∈ evictList c)
  then mkLRU (size c) (key :: filter (λ k, k ≠ key) (evictList c))
  else
    let kept :=
      if size c <=? N.of_nat (length (evictList c))
      then take (length (evictList c) - 1) (evictList c)
      else evictList c in
    mkLRU (size c) (key :: kept).

(** Modelled from the spec: section 4.2, Contains (simplelru's [Contains],
    an external dependency): "membership test; a hit counts as a recency
    touch".  The answer comes with the cache after the touch. *)
Definition Contains (c : LRU) (key : string) : bool * LRU :=
  if bool_decide (key ∈ evictList c)
  then (true, mkLRU (size c) (key :: filter (λ k, k ≠ key) (evictList c)))
  else (false, c).

(** ** The keeper *)

(** The two nonce fields of [Keeper]; the mutex [nonceMx] serialises the
    three operations below, each of which is one critical section. *)
Record Keeper : Type := mkKeeper {
  pendingNonces : gmap string (list N);
  completedNonces : LRU
}.

(** [NewKeeper]: an empty pending table and a cache of 100000 entries;
    [None] stands for the panic on a constructor error. *)
Definition NewKeeper : option Keeper :=
  match NewLRU 100000 with
  | Some cn => Some (mkKeeper ∅ cn)
  | None => None
  end.

(** The part of [sdk.Context] the nonce operations read: the committed
    nonce ledger. *)
Record Context : Type := mkContext { committedNonce : Address → N }.

(** Modelled from the spec: [Keeper.GetNonce], defined in another file of
    the keeper package, is the read [CommittedNonceSource.Get(address)] of
    section 6. *)
Definition GetNonce (ctx : Context) (addr : Address) : N :=
  committedNonce ctx addr.

(** [slices.Sort] on [[]uint64]: the ascending arrangement of the slice. *)
Definition slicesSort (s : list N) : list N := merge_sort N.le s.

(** [sortedListContains] *)
Fixpoint sortedListContains (slice : list N) (item : N) : bool :=
  match slice with
  | [] => false
  | v :: rest =>
      if v =? item then true
      else if item <? v then false
      else sortedListContains rest item
  end.

(** The [for] loop of [CalculateNextNonce].  [fuel] bounds the number of
    iterations; [None] means the bound was reached.  The cache is only
    consulted when the pending slice does not contain the candidate. *)
Fixpoint gapScan (fuel : nat) (pending : list N) (cn : LRU) (addr : Address)
    (nextNonce : N) : option (N * LRU) :=
  match fuel with
  | O => None
  | S fuel' =>
      if sortedListContains pending nextNonce
      then gapScan fuel' pending cn addr (wrap64 (nextNonce + 1))
      else
        let (hit, cn') := Contains cn (nonceCacheKey addr nextNonce) in
        if hit
        then gapScan fuel' pending cn' addr (wrap64 (nextNonce + 1))
        else Some (nextNonce, cn')
  end.

(** [CalculateNextNonce]: the suggested nonce, and the keeper afterwards. *)
Definition CalculateNextNonce (fuel : nat) (k : Keeper) (ctx : Context)
    (addr : Address) (includePending : bool) : option (N * Keeper) :=
  let latest := GetNonce ctx addr in
  let nextNonce := latest in
  if negb includePending then Some (nextNonce, k)
  else
    let pending := default [] (pendingNonces k !! Hex addr) in
    match gapScan fuel pending (completedNonces k) addr nextNonce with
    | Some (n, cn) => Some (n, mkKeeper (pendingNonces k) cn)
    | None => None
    end.

(** [AddPendingNonce]: append to the address's slice, then sort it. *)
Definition AddPendingNonce (k : Keeper) (addr : Address) (nonce : N)
  : Keeper :=
  let addrStr := Hex addr in
  let appended :=
    <[addrStr := default [] (pendingNonces k !! addrStr) ++ [nonce]]>
      (pendingNonces k) in
  mkKeeper (alter slicesSort addrStr appended) (completedNonces k).

(** The [range] loop of [RemovePendingNonce] over the slice [s] of
    [addrStr], at index [i] with [rest] still to visit.  On success the
    slice is cut after the first element that is at least [nonce], and the
    key is deleted when nothing is left; on failure the first element equal
    to [nonce] is taken out. *)
Fixpoint removeLoop (pn : gmap string (list N)) (addrStr : string)
    (s : list N) (nonce : N) (success : bool) (i : nat) (rest : list N)
  : gmap string (list N) :=
  match rest with
  | [] => pn
  | n :: rest' =>
      if success && (nonce <=? n) then
        let s' := drop (S i) s in
        let pn' := <[addrStr := s']> pn in
        if (length s' =? 0)%nat then delete addrStr pn' else pn'
      else if negb success && (n =? nonce) then
        <[addrStr := take i s ++ drop (S i) s]> pn
      else removeLoop pn addrStr s nonce success (S i) rest'
  end.

(** [RemovePendingNonce] *)
Definition RemovePendingNonce (k : Keeper) (addr : Address) (nonce : N)
    (success : bool) : Keeper :=
  if decide (addr = zeroAddress) then k
  else
    let addrStr := Hex addr in
    let cn :=
      if success
      then Add (completedNonces k) (nonceCacheKey addr nonce)
      else completedNonces k in
    match pendingNonces k !! addrStr with
    | None => mkKeeper (pendingNonces k) cn
    | Some s =>
        mkKeeper (removeLoop (pendingNonces k) addrStr s nonce success 0 s) cn
    end.

(** ** Auxiliary definitions used in the statements and proofs *)

(** Lower-case form of a character of a checksummed address: the letters
    between ['9'] and ['a'] are moved up by 32. *)
Definition toLower (c : ascii) : ascii :=
  if (N_of_ascii "9" <? N_of_ascii c) && (N_of_ascii c <? N_of_ascii "a")
  then ascii_of_N (N_of_ascii c + 32)
  else c.

(** Value of a lower-case hexadecimal digit ([hex.fromHexChar]). *)
Definition fromHexChar (c : ascii) : N :=
  let n := N_of_ascii c in
  if n <? N_of_ascii "a" then n - N_of_ascii "0" else n - N_of_ascii "a" + 10.

(** Left inverse of [hexEncode] ([hex.Decode] on well-formed input). *)
Fixpoint hexDecode (src : list ascii) : list byte :=
  match src with
  | c1 :: c2 :: rest =>
      byteOfN (16 * fromHexChar c1 + fromHexChar c2) :: hexDecode rest
  | _ => []
  end.

(** The [j]-th candidate of the gap scan that starts at [latest]. *)
Definition probe (latest : N) (j : nat) : N :=
  Nat.iter j (λ n, wrap64 (n + 1)) latest.

(** A candidate is taken when the pending slice or the completed cache
    has it. *)
Definition taken (pending : list N) (cn : LRU) (addr : Address) (n : N)
  : Prop :=
  n ∈ pending ∨ nonceCacheKey addr n ∈ evictList cn.

(** What the loop of the gap scan tests: the candidate is found in the
    slice by [sortedListContains], or in the cache. *)
Definition blocked (pending : list N) (cn : LRU) (addr : Address) (n : N)
  : Prop :=
  sortedListContains pending n = true ∨ nonceCacheKey addr n ∈ evictList cn.

(** Every pending slice of the table is in ascending order. *)
Definition sortedPending (k : Keeper) : Prop :=
  ∀ (addrStr : string) (s : list N),
    pendingNonces k !! addrStr = Some s → Sorted N.le s.

(** The cache after the keys [keys] have been added in turn. *)
Definition addAll (c : LRU) (keys : list string) : LRU :=
  fold_left Add keys c.

(** The pending slice of an address; a missing key reads as the nil
    slice. *)
Definition pendingOf (k : Keeper) (addr : Address) : list N :=
  default [] (pendingNonces k !! Hex addr).

(** The key under which the cache files an (address, nonce) pair. *)
Definition pairKey (p : Address * N) : string := nonceCacheKey p.1 p.2.

(** Sample data: the keeper right after construction, a non-null address
    whose text form has no letters, and a ledger that answers [n] for every
    address. *)
Definition emptyKeeper : Keeper := mkKeeper ∅ (mkLRU 100000 []).

Definition sampleAddress : Address := repeat x11 20.

Definition ledger (n : N) : Context := mkContext (λ _, n).

(** A keeper with pending nonces 7, 8 and 10 for [sampleAddress], and
    nonce 9 completed. *)
Definition gapKeeper : Keeper :=
  mkKeeper {[ Hex sampleAddress := [7; 8; 10] ]}
           (mkLRU 100000 [nonceCacheKey sampleAddress 9]).

(** A keeper with the given pending slice for [sampleAddress] and an
    empty cache. *)
Definition pendingKeeper (s : list N) : Keeper :=
  mkKeeper {[ Hex sampleAddress := s ]} (mkLRU 100000 []).

(** The keepers that the three operations produce from a new keeper. *)
Inductive reachable : Keeper → Prop :=
| reachable_new : reachable emptyKeeper
| reachable_add k addr nonce :
    reachable k → reachable (AddPendingNonce k addr nonce)
| reachable_remove k addr nonce success :
    reachable k → reachable (RemovePendingNonce k addr nonce success)
| reachable_suggest k fuel ctx addr includePending r k' :
    reachable k →
    CalculateNextNonce fuel k ctx addr includePending = Some (r, k') →
    reachable k'.

(** ** Block hashes ([GetHashFn], [getHistoricalHash]) *)

(** [common.Hash] is [[32]byte]; [common.Hash{}] is all zero. *)
Abbreviation Hash := (list byte) (only parsing).

Definition HashLength : nat := 32.

Definition emptyHash : Hash := repeat x00 HashLength.

(** [common.BytesToHash] ([Hash.SetBytes]): a longer input is cropped from
    the left, a shorter one is copied to the right end of the zero hash. *)
Definition BytesToHash (b : list byte) : Hash :=
  let b := if (HashLength <? length b)%nat
           then drop (length b - HashLength) b else b in
  repeat x00 (HashLength - length b) ++ b.

(** [math.MaxInt64] *)
Definition maxInt64 : Z := (2 ^ 63 - 1)%Z.

(** What [GetHashFn] reads through [sdk.Context] and the staking keeper:
    the block height (an [int64]), the hash of the current header, and
    for a height the bytes of [header.Hash()] of the historical info
    stored for it, if any ([GetHistoricalInfo] with its [found] flag). *)
Record HashContext : Type := mkHashContext {
  BlockHeight : Z;
  HeaderHash : list byte;
  historicalHeaderHash : Z → option (list byte)
}.

(** [getHistoricalHash] *)
Definition getHistoricalHash (ctx : HashContext) (h : Z) : Hash :=
  match historicalHeaderHash ctx h with
  | None => emptyHash
  | Some headerHash => BytesToHash headerHash
  end.

(** The function that [GetHashFn] returns, applied to [height] (a
    [uint64]).  The log line of the first branch is not modelled. *)
Definition GetHashFn (ctx : HashContext) (height : N) : Hash :=
  if (maxInt64 <? Z.of_N height)%Z then emptyHash
  else
    let h := Z.of_N height in
    if (BlockHeight ctx =? h)%Z then BytesToHash (HeaderHash ctx)
    else if (BlockHeight ctx <? h)%Z then emptyHash
    else getHistoricalHash ctx h.

(** ** Transaction indices ([evmTxIndices], a [[]int]) *)

(** [ClearEVMTxIndices] *)
Definition ClearEVMTxIndices (evmTxIndices : list Z) : list Z := [].

(** [GetEVMTxIndices] *)
Definition GetEVMTxIndices (evmTxIndices : list Z) : list Z := evmTxIndices.

(** [AppendToEVMTxIndices] *)
Definition AppendToEVMTxIndices (evmTxIndices : list Z) (idx : Z) : list Z :=
  evmTxIndices ++ [idx].

(** ** Purging a store ([PurgePrefix]) *)

#[global] Instance byte_countable : Countable byte :=
  inj_countable' Byte.to_N byteOfN
    (λ x, ltac:(destruct x; vm_compute; reflexivity)).

(** The operations of the interface [sdk.KVStore] on the store that
    [PrefixStore] hands to [PurgePrefix].  The interface and its
    implementations belong to the SDK, so a store is any type with these
    operations: [storeHas] is [Has], [storeDelete] is [Delete], and
    [storeIteratorKeys] lists the keys that the loop over
    [Iterator(nil, nil)] reads with [iter.Key()] until [iter.Valid()]
    fails. *)
Class KVStore (S : Type) : Type := mkKVStore {
  storeHas : S → list byte → bool;
  storeDelete : S → list byte → S;
  storeIteratorKeys : S → list (list byte)
}.

(** [PurgePrefix], from the store that [k.PrefixStore(ctx, pref)] returned
    on: the first loop collects the keys of the iterator, the second
    deletes each of them. *)
Definition PurgePrefix {S : Type} `{KVStore S} (store : S) : S :=
  let keys := foldl (λ keys key, keys ++ [key]) [] (storeIteratorKeys store) in
  foldl (λ st key, storeDelete st key) store keys.

(** What [PurgePrefix] relies on: the iterator visits exactly the keys the
    store has, and a delete takes out its key and no other. *)
Definition lawfulKVStore (S : Type) `{KVStore S} : Prop :=
  (∀ (s : S) (key : list byte),
      key ∈ storeIteratorKeys s ↔ storeHas s key = true)
  ∧ (∀ (s : S) (k key : list byte),
        storeHas (storeDelete s k) key = true
        ↔ storeHas s key = true ∧ key ≠ k).

(** A sample store: a finite map from keys to values. *)
Definition mapStore : KVStore (gmap (list byte) (list byte)) :=
  mkKVStore (gmap (list byte) (list byte))
    (λ m key, bool_decide (is_Some (m !! key)))
    (λ m key, delete key m)
    (λ m, (map_to_list m).*1).

(** A strictly ascending slice. *)
Definition strictlySorted (s : list N) : Prop := Sorted N.lt s.

(** What every keeper produced from a new one satisfies. *)
Definition keeperInvariant (k : Keeper) : Prop :=
  sortedPending k
  ∧ size (completedNonces k) = 100000
  ∧ NoDup (evictList (completedNonces k))
  ∧ N.of_nat (length (evictList (completedNonces k))) ≤ 100000.

(** ** Cache keys *)

Section CacheKey.

Lemma list_ascii_of_string_app (s1 s2 : string) :
  list_ascii_of_string (String.append s1 s2)
  = list_ascii_of_string s1 ++ list_ascii_of_string s2.
Proof.
  induction s1 as [|c s1 IH]; simpl; [reflexivity|]. now rewrite IH.
Qed.

(** The digest of the empty message, and two addresses of the test
    vectors of EIP-55. *)
Example sum256_empty :
  map Byte.to_N (Keccak.sum256 [])
  = [ 0xc5; 0xd2; 0x46; 0x01; 0x86; 0xf7; 0x23; 0x3c;
      0x92; 0x7e; 0x7d; 0xb2; 0xdc; 0xc7; 0x03; 0xc0;
      0xe5; 0x00; 0xb6; 0x53; 0xca; 0x82; 0x27; 0x3b;
      0x7b; 0xfa; 0xd8; 0x04; 0x5d; 0x85; 0xa4; 0x70 ].
Proof. vm_compute. reflexivity. Qed.

Example Hex_checksum_vectors :
  Hex (map byteOfN
         [ 0x5a; 0xae; 0xb6; 0x05; 0x3f; 0x3e; 0x94; 0xc9; 0xb9; 0xa0;
           0x9f; 0x33; 0x66; 0x94; 0x35; 0xe7; 0xef; 0x1b; 0xea; 0xed ])
  = "0x5aAeb6053F3E94C9b9A09f33669435E7Ef1BeAed"%string
  ∧ Hex (map byteOfN
           [ 0xfb; 0x69; 0x16; 0x09; 0x5c; 0xa1; 0xdf; 0x60; 0xbb; 0x79;
             0xce; 0x92; 0xce; 0x3e; 0xa7; 0x4c; 0x37; 0xc5; 0xd3; 0x59 ])
    = "0xfB6916095ca1df60bB79Ce92cE3Ea74c37c5d359"%string.
Proof. split; vm_compute; reflexivity. Qed.

Example nonceCacheKey_sample :
  nonceCacheKey zeroAddress 18446744073709551615
  = "0x0000000000000000000000000000000000000000|18446744073709551615"%string.
Proof. vm_compute. reflexivity. Qed.

Lemma formatUint_inj (n1 n2 : N) : formatUint n1 = formatUint n2 → n1 = n2.
Proof.
  unfold formatUint. intros E.
  apply DecimalN.Unsigned.to_uint_inj.
  apply (f_equal NilEmpty.uint_of_string) in E.
  rewrite !NilEmpty.usu in E. congruence.
Qed.

Lemma hexDecode_hexEncode (a : list byte) : hexDecode (hexEncode a) = a.
Proof.
  induction a as [|v a IH]; [reflexivity|].
  change (hexEncode (v :: a)) with
    (nth (N.to_nat (N.shiftr (Byte.to_N v) 4)) hextable "0"%char
     :: nth (N.to_nat (N.land (Byte.to_N v) 0x0f)) hextable "0"%char
     :: hexEncode a).
  cbn [hexDecode]. rewrite IH. f_equal.
  destruct v; vm_compute; reflexivity.
Qed.

Lemma hexEncode_inj (a1 a2 : list byte) :
  hexEncode a1 = hexEncode a2 → a1 = a2.
Proof.
  intros E. rewrite <- (hexDecode_hexEncode a1), <- (hexDecode_hexEncode a2).
  now rewrite E.
Qed.

Lemma hexEncode_hextable (a : list byte) c :
  c ∈ hexEncode a → c ∈ hextable.
Proof.
  induction a as [|v a IH]; [by intros ?%elem_of_nil|].
  change (hexEncode (v :: a)) with
    (nth (N.to_nat (N.shiftr (Byte.to_N v) 4)) hextable "0"%char
     :: nth (N.to_nat (N.land (Byte.to_N v) 0x0f)) hextable "0"%char
     :: hexEncode a).
  rewrite !elem_of_cons. intros [->|[->|H]]; [| |by apply IH].
  - destruct v; vm_compute; repeat first [left; reflexivity | right].
  - destruct v; vm_compute; repeat first [left; reflexivity | right].
Qed.

Lemma toLower_checksum (c : ascii) (b : bool) :
  c ∈ hextable →
  toLower (if (N_of_ascii "9" <? N_of_ascii c) && b
           then ascii_of_N (N_of_ascii c - 32) else c) = c.
Proof.
  intros H. unfold hextable in H. cbn [list_ascii_of_string] in H.
  repeat (apply elem_of_cons in H as [->|H];
          [destruct b; vm_compute; reflexivity|]).
  by apply elem_of_nil in H.
Qed.

Lemma toLower_checksumLoop (hash : list byte) (buf : list ascii) (i : nat) :
  (∀ c, c ∈ buf → c ∈ hextable) →
  map toLower (checksumLoop hash i buf) = buf.
Proof.
  revert i. induction buf as [|c buf IH]; intros i Hbuf; [reflexivity|].
  cbn [checksumLoop map]. f_equal.
  - apply toLower_checksum, Hbuf. constructor.
  - apply IH. intros c' Hc'. apply Hbuf. by constructor.
Qed.

Lemma checksumHex_eq (a : Address) :
  checksumHex a
  = "0"%char :: "x"%char
      :: checksumLoop (Keccak.sum256 (map byte_of_ascii (hexEncode a))) 2
           (hexEncode a).
Proof. reflexivity. Qed.

Lemma checksumHex_lower (a : Address) :
  map toLower (checksumHex a) = hex a.
Proof.
  rewrite checksumHex_eq. cbn [map].
  rewrite toLower_checksumLoop by apply hexEncode_hextable.
  reflexivity.
Qed.

Lemma checksumHex_inj (a1 a2 : Address) :
  checksumHex a1 = checksumHex a2 → a1 = a2.
Proof.
  intros E. apply (f_equal (map toLower)) in E.
  rewrite !checksumHex_lower in E. unfold hex in E. simpl in E.
  apply hexEncode_inj. congruence.
Qed.

Lemma Hex_inj (a1 a2 : Address) : Hex a1 = Hex a2 → a1 = a2.
Proof.
  unfold Hex. intros E. apply checksumHex_inj.
  apply (f_equal list_ascii_of_string) in E.
  now rewrite !list_ascii_of_string_of_list_ascii in E.
Qed.

Lemma checksumHex_no_bar (a : Address) : "|"%char ∉ checksumHex a.
Proof.
  intros H. apply (list_elem_of_fmap_2 toLower) in H.
  change (toLower <$> checksumHex a) with (map toLower (checksumHex a)) in H.
  rewrite checksumHex_lower in H. unfold hex in H. simpl in H.
  apply elem_of_cons in H as [H|H]; [discriminate|].
  apply elem_of_cons in H as [H|H]; [discriminate|].
  apply hexEncode_hextable in H. unfold hextable in H. simpl in H.
  repeat (apply elem_of_cons in H as [H|H]; [discriminate|]).
  by apply elem_of_nil in H.
Qed.

(** Two texts that are split by the same separator, which the parts
    before it do not contain, have equal parts. *)
Lemma app_sep_inj (sep : ascii) (l1 l2 r1 r2 : list ascii) :
  sep ∉ l1 → sep ∉ l2 →
  l1 ++ sep :: r1 = l2 ++ sep :: r2 → l1 = l2 ∧ r1 = r2.
Proof.
  revert l2. induction l1 as [|c l1 IH]; intros [|d l2] H1 H2 E;
    simpl in E.
  - split; congruence.
  - exfalso. apply H2. injection E as <- _. constructor.
  - exfalso. apply H1. injection E as -> _. constructor.
  - injection E as -> E. apply IH in E as [-> ->]; [done| |].
    + intros ?. apply H1. by constructor.
    + intros ?. apply H2. by constructor.
Qed.

Lemma nonceCacheKey_inj (a1 a2 : Address) (n1 n2 : N) :
  nonceCacheKey a1 n1 = nonceCacheKey a2 n2 → a1 = a2 ∧ n1 = n2.
Proof.
  unfold nonceCacheKey. intros E.
  apply (f_equal list_ascii_of_string) in E.
  rewrite !list_ascii_of_string_app in E. unfold Hex in E.
  rewrite !list_ascii_of_string_of_list_ascii in E.
  cbn [list_ascii_of_string app] in E.
  apply app_sep_inj in E as [Ea En]; try apply checksumHex_no_bar.
  split; [by apply checksumHex_inj|].
  apply formatUint_inj.
  rewrite <- (string_of_list_ascii_of_string (formatUint n1)),
          <- (string_of_list_ascii_of_string (formatUint n2)).
  now rewrite En.
Qed.

End CacheKey.

(** ** Pending slices *)

Section PendingSlice.

Implicit Types (s : list N) (item v : N).

Lemma sortedListContains_elem s item :
  sortedListContains s item = true → item ∈ s.
Proof.
  induction s as [|v s IH]; cbn [sortedListContains]; [discriminate|].
  destruct (N.eqb_spec v item) as [->|Hne]; [intros _; constructor|].
  destruct (item <? v); [discriminate|].
  intros H. constructor. by apply IH.
Qed.

Lemma sortedListContains_sorted s item :
  Sorted N.le s → item ∈ s → sortedListContains s item = true.
Proof.
  intros Hs%Sorted_StronglySorted; [|apply _].
  induction Hs as [|v s Hs IH Hall]; [by intros ?%elem_of_nil|].
  cbn [sortedListContains]. intros Hin.
  destruct (N.eqb_spec v item) as [->|Hne]; [reflexivity|].
  apply elem_of_cons in Hin as [->|Hin]; [done|].
  rewrite Forall_forall in Hall.
  destruct (N.ltb_spec item v) as [Hlt|_]; [|by apply IH].
  apply Hall in Hin. lia.
Qed.

(** On a slice that is not ascending the early exit can miss an
    element. *)
Example sortedListContains_unsorted : sortedListContains [5; 3] 3 = false.
Proof. reflexivity. Qed.

Lemma sortedListContains_iff s item :
  Sorted N.le s → sortedListContains s item = true ↔ item ∈ s.
Proof.
  intros Hs. split;
    [apply sortedListContains_elem | by apply sortedListContains_sorted].
Qed.

Lemma slicesSort_Sorted s : Sorted N.le (slicesSort s).
Proof. apply (Sorted_merge_sort N.le). Qed.

Lemma slicesSort_Permutation s : slicesSort s ≡ₚ s.
Proof. apply merge_sort_Permutation. Qed.

Lemma slicesSort_elem s item : item ∈ slicesSort s ↔ item ∈ s.
Proof. by rewrite slicesSort_Permutation. Qed.

Lemma Sorted_drop s (i : nat) : Sorted N.le s → Sorted N.le (drop i s).
Proof.
  revert s. induction i as [|i IH]; intros s Hs; [by rewrite drop_0|].
  destruct s as [|v s]; [done|]. cbn [drop]. apply IH.
  by inversion Hs.
Qed.

Lemma Sorted_delete_at s (i : nat) :
  Sorted N.le s → Sorted N.le (take i s ++ drop (S i) s).
Proof.
  intros Hs%Sorted_StronglySorted; [|apply _].
  apply StronglySorted_Sorted.
  revert i. induction Hs as [|v s Hs IH Hall]; intros i.
  - rewrite take_nil, drop_nil. constructor.
  - destruct i as [|i]; [exact Hs|].
    cbn [take drop app]. constructor; [apply IH|].
    rewrite Forall_forall in Hall |- *. intros x Hx. apply Hall.
    apply elem_of_app in Hx as [Hx|Hx].
    + by eapply subseteq_take.
    + by eapply subseteq_drop.
Qed.

End PendingSlice.

(** ** The completed-nonce cache *)

Section CompletedCache.

Implicit Types (c : LRU) (key : string).

Lemma elem_of_touch key key' (l : list string) :
  key ∈ l → key' ∈ key :: filter (λ k, k ≠ key) l ↔ key' ∈ l.
Proof.
  intros Hin. rewrite elem_of_cons, list_elem_of_filter.
  destruct (decide (key' = key)) as [->|Hne]; [tauto|].
  split; [intros [?|[_ ?]]; done|intros ?; by right].
Qed.

Lemma Contains_hit c key :
  key ∈ evictList c →
  Contains c key
  = (true, mkLRU (size c) (key :: filter (λ k, k ≠ key) (evictList c))).
Proof. intros H. unfold Contains. by rewrite bool_decide_eq_true_2. Qed.

Lemma Contains_miss c key :
  key ∉ evictList c → Contains c key = (false, c).
Proof. intros H. unfold Contains. by rewrite bool_decide_eq_false_2. Qed.

Lemma Contains_true c key :
  (Contains c key).1 = true ↔ key ∈ evictList c.
Proof.
  unfold Contains. case_bool_decide; simpl; naive_solver.
Qed.

Lemma Contains_keys c key key' :
  key' ∈ evictList (Contains c key).2 ↔ key' ∈ evictList c.
Proof.
  unfold Contains. case_bool_decide; simpl; [|done].
  by apply elem_of_touch.
Qed.

Lemma Contains_size c key : size (Contains c key).2 = size c.
Proof. unfold Contains. by case_bool_decide. Qed.

Lemma Add_keys c key key' :
  key' ∈ evictList (Add c key) → key' = key ∨ key' ∈ evictList c.
Proof.
  unfold Add. case_bool_decide as Hin; simpl.
  - rewrite elem_of_touch by done. by right.
  - rewrite elem_of_cons. intros [->|H]; [by left|right].
    destruct (size c <=? N.of_nat (length (evictList c))); [|done].
    by eapply subseteq_take.
Qed.

Lemma Add_elem c key : key ∈ evictList (Add c key).
Proof. unfold Add. case_bool_decide; simpl; constructor. Qed.

Lemma Add_size c key : size (Add c key) = size c.
Proof. unfold Add. by case_bool_decide. Qed.

Lemma filter_ne_fresh key (l : list string) :
  key ∉ l → filter (λ k, k ≠ key) l = l.
Proof.
  induction l as [|x l IH]; intros Hnot; [reflexivity|].
  apply not_elem_of_cons in Hnot as [Hne Hnot].
  rewrite filter_cons_True by done. by rewrite IH.
Qed.

Lemma filter_ne_idemp key (l : list string) :
  filter (λ k, k ≠ key) (filter (λ k, k ≠ key) l)
  = filter (λ k, k ≠ key) l.
Proof.
  apply filter_ne_fresh. rewrite list_elem_of_filter.
  intros [Hne _]. by apply Hne.
Qed.

Lemma Add_fresh c key :
  key ∉ evictList c →
  evictList (Add c key)
  = key :: (if size c <=? N.of_nat (length (evictList c))
            then take (length (evictList c) - 1) (evictList c)
            else evictList c).
Proof. intros H. unfold Add. by rewrite bool_decide_eq_false_2. Qed.

Lemma addAll_snoc c (keys : list string) key :
  addAll c (keys ++ [key]) = Add (addAll c keys) key.
Proof. unfold addAll. by rewrite fold_left_app. Qed.

Lemma addAll_size c (keys : list string) : size (addAll c keys) = size c.
Proof.
  induction keys as [|key keys IH] using rev_ind; [reflexivity|].
  by rewrite addAll_snoc, Add_size.
Qed.

(** Adding pairwise distinct keys to an empty cache keeps the most
    recent [sz] of them, the latest first. *)
Lemma addAll_fresh (sz : N) (keys : list string) :
  0 < sz → NoDup keys →
  evictList (addAll (mkLRU sz []) keys)
  = take (N.to_nat sz) (reverse keys).
Proof.
  intros Hsz. induction keys as [|key keys IH] using rev_ind;
    intros Hnd; [by destruct (N.to_nat sz)|].
  apply NoDup_app in Hnd as (Hnd & Hfresh & _).
  specialize (IH Hnd).
  assert (key ∉ keys) as Hkey.
  { intros Hin. apply (Hfresh key Hin). constructor. }
  rewrite addAll_snoc, Add_fresh.
  2:{ rewrite IH. intros Hin. apply Hkey, elem_of_reverse.
      by eapply subseteq_take. }
  rewrite addAll_size, IH. cbn [size].
  rewrite reverse_snoc.
  assert (take (N.to_nat sz) (key :: reverse keys)
          = key :: take (N.to_nat sz - 1) (reverse keys)) as ->.
  { destruct (N.to_nat sz) as [|n] eqn:E; [lia|].
    cbn [take]. by rewrite Nat.sub_1_r. }
  f_equal. rewrite length_take, length_reverse.
  destruct (N.leb_spec sz (N.of_nat (N.to_nat sz `min` length keys))).
  - rewrite take_take. f_equal. lia.
  - rewrite !take_ge; [done|rewrite length_reverse; lia..].
Qed.

End CompletedCache.

(** ** The gap scan *)

Section GapScan.

Implicit Types (pending : list N) (cn : LRU) (addr : Address).

Lemma probe_S latest (j : nat) :
  probe (wrap64 (latest + 1)) j = probe latest (S j).
Proof. unfold probe. by rewrite Nat.iter_succ_r. Qed.

Lemma probe_mod latest (j : nat) :
  probe latest j mod two64 = (latest + N.of_nat j) mod two64.
Proof.
  induction j as [|j IH]; [by rewrite N.add_0_r|].
  change (probe latest (S j)) with (wrap64 (probe latest j + 1)).
  unfold wrap64.
  rewrite N.Div0.mod_mod, <- N.Div0.add_mod_idemp_l, IH,
    N.Div0.add_mod_idemp_l.
  f_equal. lia.
Qed.

Lemma probe_inj latest (i j : nat) :
  N.of_nat i < two64 → N.of_nat j < two64 →
  probe latest i = probe latest j → i = j.
Proof.
  intros Hi Hj E. apply (f_equal (λ n, n mod two64)) in E.
  rewrite !probe_mod in E.
  assert (Hk : ∀ a b : nat, (a ≤ b)%nat → N.of_nat b < two64 →
               (latest + N.of_nat a) mod two64
               = (latest + N.of_nat b) mod two64 → a = b).
  { intros a b Hab Hb E'.
    replace (latest + N.of_nat b) with
      ((latest + N.of_nat a) + N.of_nat (b - a)) in E' by lia.
    assert (Hd : N.of_nat (b - a) mod two64 = 0).
    { pose proof (N.Div0.add_mod (latest + N.of_nat a) (N.of_nat (b - a))
                    two64) as Hadd.
      pose proof (N.mod_upper_bound (latest + N.of_nat a) two64) as Hu.
      pose proof (N.mod_upper_bound (N.of_nat (b - a)) two64) as Hv.
      assert (two64 ≠ 0) as Hnz by (vm_compute; discriminate).
      specialize (Hu Hnz). specialize (Hv Hnz).
      set (x := (latest + N.of_nat a) mod two64) in *.
      set (y := N.of_nat (b - a) mod two64) in *.
      rewrite Hadd in E'.
      destruct (decide (x + y < two64)) as [Hlt|Hge].
      - rewrite N.mod_small in E' by done. lia.
      - assert ((x + y) mod two64 = x + y - two64) as Hm.
        { symmetry. apply (N.mod_unique _ _ 1); lia. }
        lia. }
    rewrite N.mod_small in Hd by lia. lia. }
  destruct (decide (i ≤ j)%nat); [by apply Hk|].
  symmetry. apply Hk; [lia|done|done].
Qed.

Lemma blocked_taken pending cn addr n :
  blocked pending cn addr n → taken pending cn addr n.
Proof.
  intros [H|H]; [left; by apply sortedListContains_elem | by right].
Qed.

Lemma taken_blocked pending cn addr n :
  Sorted N.le pending → taken pending cn addr n → blocked pending cn addr n.
Proof.
  intros Hs [H|H]; [left; by apply sortedListContains_sorted | by right].
Qed.

Lemma blocked_touch pending cn addr key n :
  blocked pending (Contains cn key).2 addr n ↔ blocked pending cn addr n.
Proof. unfold blocked. by rewrite Contains_keys. Qed.

Lemma gapScan_None (fuel : nat) pending cn addr n :
  gapScan fuel pending cn addr n = None →
  ∀ i : nat, (i < fuel)%nat → blocked pending cn addr (probe n i).
Proof.
  revert cn n. induction fuel as [|fuel IH]; intros cn n E i Hi; [lia|].
  cbn [gapScan] in E.
  destruct (sortedListContains pending n) eqn:Hp.
  - destruct i as [|i]; [by left|].
    rewrite <- probe_S. apply IH; [done|lia].
  - destruct (Contains cn (nonceCacheKey addr n)) as [hit cn'] eqn:Hc.
    destruct hit; [|discriminate].
    assert ((Contains cn (nonceCacheKey addr n)).1 = true) as Hhit
      by by rewrite Hc.
    apply Contains_true in Hhit.
    destruct i as [|i]; [by right|].
    rewrite <- probe_S.
    apply (blocked_touch _ _ _ (nonceCacheKey addr n)).
    rewrite Hc. apply IH; [done|lia].
Qed.

Lemma gapScan_Some (fuel : nat) pending cn addr n r cn' :
  gapScan fuel pending cn addr n = Some (r, cn') →
  ∃ j : nat,
    (j < fuel)%nat ∧ r = probe n j ∧ ¬ blocked pending cn addr r ∧
    (∀ i : nat, (i < j)%nat → blocked pending cn addr (probe n i)) ∧
    size cn' = size cn ∧
    (∀ key, key ∈ evictList cn' ↔ key ∈ evictList cn).
Proof.
  revert cn n. induction fuel as [|fuel IH]; intros cn n E; [discriminate|].
  cbn [gapScan] in E.
  destruct (sortedListContains pending n) eqn:Hp.
  - apply IH in E as (j & Hj & -> & Hfree & Hbefore & Hsz & Hkeys).
    exists (S j). rewrite <- probe_S.
    split; [lia|]. split; [done|]. split; [done|]. split; [|done].
    intros [|i] Hi; [by left|]. rewrite <- probe_S. apply Hbefore. lia.
  - destruct (Contains cn (nonceCacheKey addr n)) as [hit cn1] eqn:Hc.
    assert ((Contains cn (nonceCacheKey addr n)).1 = hit) as Hhit
      by by rewrite Hc.
    assert ((Contains cn (nonceCacheKey addr n)).2 = cn1) as Hcn1
      by by rewrite Hc.
    destruct hit.
    + apply Contains_true in Hhit.
      apply IH in E as (j & Hj & -> & Hfree & Hbefore & Hsz & Hkeys).
      rewrite <- Hcn1 in Hfree, Hbefore, Hsz, Hkeys.
      exists (S j). rewrite <- probe_S.
      split; [lia|]. split; [done|]. split; [by rewrite <- blocked_touch|].
      split; [|split].
      * intros [|i] Hi; [by right|]. rewrite <- probe_S.
        rewrite <- blocked_touch. apply Hbefore. lia.
      * by rewrite Hsz, Contains_size.
      * intros key. by rewrite Hkeys, Contains_keys.
    + injection E as <- <-. exists 0%nat.
      split; [lia|]. split; [done|]. split.
      * intros [H|H]; [congruence|].
        apply Contains_true in H. congruence.
      * split; [intros i Hi; lia|]. rewrite <- Hcn1.
        split; [apply Contains_size|]. intros key. apply Contains_keys.
Qed.

Lemma gapScan_mono (fuel fuel' : nat) pending cn addr n res :
  gapScan fuel pending cn addr n = Some res → (fuel ≤ fuel')%nat →
  gapScan fuel' pending cn addr n = Some res.
Proof.
  revert fuel' cn n. induction fuel as [|fuel IH]; intros fuel' cn n E Hle;
    [discriminate|].
  destruct fuel' as [|fuel']; [lia|].
  cbn [gapScan] in E |- *.
  destruct (sortedListContains pending n); [apply IH; [done|lia]|].
  destruct (Contains cn (nonceCacheKey addr n)) as [[] cn1]; [|done].
  apply IH; [done|lia].
Qed.

(** Counting argument: the first [m + 1] candidates are pairwise
    distinct, the slice blocks at most as many as it has elements and
    the cache at most as many as it has keys, so [m] elements in all
    cannot block every one of them. *)
Lemma not_all_blocked pending cn addr n :
  N.of_nat (length pending) + N.of_nat (length (evictList cn)) < two64 →
  ¬ ∀ i : nat, (i < S (length pending + length (evictList cn)))%nat →
               blocked pending cn addr (probe n i).
Proof.
  intros Hbound Hall.
  set (m := (length pending + length (evictList cn))%nat) in *.
  set (cs := probe n <$> seq 0 (S m)).
  assert (NoDup cs) as Hnd.
  { apply NoDup_fmap_2_strong; [|apply NoDup_seq].
    intros i j Hi%elem_of_seq Hj%elem_of_seq E.
    apply (probe_inj n); [lia|lia|done]. }
  assert (∀ c, c ∈ cs → blocked pending cn addr c) as Hcs.
  { intros c (i & -> & Hi%elem_of_seq)%list_elem_of_fmap.
    apply Hall. lia. }
  set (P := λ c : N, sortedListContains pending c = true).
  assert (length (filter P cs) ≤ length pending)%nat as H1.
  { apply submseteq_length, NoDup_submseteq; [by apply NoDup_filter|].
    intros c [Hc _]%list_elem_of_filter.
    by apply sortedListContains_elem. }
  assert (length (filter (λ c, ¬ P c) cs) ≤ length (evictList cn))%nat
    as H2.
  { rewrite <- (length_fmap (nonceCacheKey addr)).
    apply submseteq_length, NoDup_submseteq.
    - apply NoDup_fmap_2_strong; [|by apply NoDup_filter].
      intros x y _ _ E. by apply nonceCacheKey_inj in E as [_ ?].
    - intros key (c & -> & [Hc Hin]%list_elem_of_filter)%list_elem_of_fmap.
      destruct (Hcs c Hin) as [?|?]; done. }
  pose proof (Permutation_length (filter_app_complement P cs)) as H3.
  rewrite length_app in H3.
  assert (length cs = S m) as H4.
  { unfold cs. by rewrite length_fmap, length_seq. }
  lia.
Qed.

Lemma probe_small latest (j : nat) :
  latest + N.of_nat j < two64 → probe latest j = latest + N.of_nat j.
Proof.
  induction j as [|j IH]; intros Hlt; [by rewrite N.add_0_r|].
  change (probe latest (S j)) with (wrap64 (probe latest j + 1)).
  rewrite IH by lia. unfold wrap64. rewrite N.mod_small by lia. lia.
Qed.

Lemma gapScan_step_pending (fuel : nat) pending cn addr n :
  sortedListContains pending n = true →
  gapScan (S fuel) pending cn addr n
  = gapScan fuel pending cn addr (wrap64 (n + 1)).
Proof. intros H. cbn [gapScan]. by rewrite H. Qed.

Lemma gapScan_step_hit (fuel : nat) pending cn addr n :
  sortedListContains pending n = false →
  nonceCacheKey addr n ∈ evictList cn →
  gapScan (S fuel) pending cn addr n
  = gapScan fuel pending (Contains cn (nonceCacheKey addr n)).2 addr
      (wrap64 (n + 1)).
Proof.
  intros H Hin. cbn [gapScan]. rewrite H. by rewrite Contains_hit.
Qed.

Lemma gapScan_step_free (fuel : nat) pending cn addr n :
  sortedListContains pending n = false →
  nonceCacheKey addr n ∉ evictList cn →
  gapScan (S fuel) pending cn addr n = Some (n, cn).
Proof.
  intros H Hin. cbn [gapScan]. rewrite H. by rewrite Contains_miss.
Qed.

Lemma gapScan_terminates pending cn addr n :
  N.of_nat (length pending) + N.of_nat (length (evictList cn)) < two64 →
  is_Some (gapScan (S (length pending + length (evictList cn)))
                   pending cn addr n).
Proof.
  intros Hbound.
  destruct (gapScan _ pending cn addr n) as [res|] eqn:E; [by eexists|].
  exfalso. eapply not_all_blocked; [exact Hbound|].
  by apply gapScan_None.
Qed.

End GapScan.

(** ** The removal loop *)

Section RemoveLoop.

Implicit Types (pn : gmap string (list N)) (addrStr : string).
Implicit Types (s pre mid post : list N) (nonce x : N).


Lemma removeLoop_success_hit pn addrStr s nonce pre mid x post :
  s = pre ++ mid ++ x :: post →
  Forall (λ y, y < nonce) mid → nonce ≤ x →
  removeLoop pn addrStr s nonce true (length pre) (mid ++ x :: post)
  = if (length post =? 0)%nat
    then delete addrStr (<[addrStr := post]> pn)
    else <[addrStr := post]> pn.
Proof.
  intros -> Hall Hx. revert pre.
  induction Hall as [|y mid Hy _ IH]; intros pre.
  - cbn [app removeLoop andb].
    destruct (N.leb_spec nonce x); [|lia].
    replace (drop (S (length pre)) (pre ++ x :: post)) with post; [done|].
    rewrite (cons_middle x pre post), app_assoc.
    rewrite drop_app_length'; [done|]. rewrite length_app. simpl. lia.
  - cbn [app removeLoop andb negb].
    destruct (N.leb_spec nonce y); [lia|].
    specialize (IH (pre ++ [y])).
    rewrite length_app in IH. simpl in IH.
    rewrite Nat.add_1_r, <- app_assoc in IH. exact IH.
Qed.

Lemma removeLoop_failure_absent pn addrStr s nonce (i : nat) rest :
  nonce ∉ rest → removeLoop pn addrStr s nonce false i rest = pn.
Proof.
  revert i. induction rest as [|y rest IH]; intros i Hnot; [reflexivity|].
  cbn [removeLoop andb negb].
  destruct (N.eqb_spec y nonce) as [->|_].
  - exfalso. apply Hnot. constructor.
  - apply IH. intros ?. apply Hnot. by constructor.
Qed.

Lemma removeLoop_failure_hit pn addrStr s nonce pre mid post :
  s = pre ++ mid ++ nonce :: post → nonce ∉ mid →
  removeLoop pn addrStr s nonce false (length pre) (mid ++ nonce :: post)
  = <[addrStr := pre ++ mid ++ post]> pn.
Proof.
  intros ->. revert pre.
  induction mid as [|y mid IH]; intros pre Hnot.
  - cbn [app removeLoop andb negb]. rewrite N.eqb_refl.
    rewrite take_app_length.
    replace (drop (S (length pre)) (pre ++ nonce :: post)) with post;
      [done|].
    rewrite (cons_middle nonce pre post), app_assoc.
    rewrite drop_app_length'; [done|]. rewrite length_app. simpl. lia.
  - cbn [app removeLoop andb negb].
    destruct (N.eqb_spec y nonce) as [->|_].
    { exfalso. apply Hnot. constructor. }
    specialize (IH (pre ++ [y])).
    rewrite length_app in IH. simpl in IH.
    rewrite Nat.add_1_r, <- !app_assoc in IH. apply IH.
    intros ?. apply Hnot. by constructor.
Qed.

Lemma removeLoop_sorted pn addrStr s nonce success (i : nat) rest :
  (∀ a l, pn !! a = Some l → Sorted N.le l) → Sorted N.le s →
  ∀ a l, removeLoop pn addrStr s nonce success i rest !! a = Some l →
         Sorted N.le l.
Proof.
  intros Hpn Hs. revert i.
  induction rest as [|y rest IH]; intros i a l; cbn [removeLoop];
    [apply Hpn|].
  destruct (success && (nonce <=? y)).
  { destruct (length (drop (S i) s) =? 0)%nat.
    - rewrite lookup_delete. case_decide; [done|].
      rewrite lookup_insert_ne by done. apply Hpn.
    - rewrite lookup_insert. case_decide; [|apply Hpn].
      intros [= <-]. by apply Sorted_drop. }
  destruct (negb success && (y =? nonce)); [|apply IH].
  rewrite lookup_insert. case_decide; [|apply Hpn].
  intros [= <-]. by apply Sorted_delete_at.
Qed.

End RemoveLoop.

(** ** Operations on the keeper *)

Section Operations.

Implicit Types (k : Keeper) (addr : Address) (nonce : N).

Lemma NewKeeper_eq : NewKeeper = Some emptyKeeper.
Proof. reflexivity. Qed.

Lemma AddPendingNonce_lookup k addr nonce :
  pendingNonces (AddPendingNonce k addr nonce) !! Hex addr
  = Some (slicesSort (default [] (pendingNonces k !! Hex addr) ++ [nonce])).
Proof.
  unfold AddPendingNonce. cbn [pendingNonces].
  by rewrite lookup_alter_eq, lookup_insert_eq.
Qed.

Lemma AddPendingNonce_lookup_ne k addr nonce (addrStr : string) :
  addrStr ≠ Hex addr →
  pendingNonces (AddPendingNonce k addr nonce) !! addrStr
  = pendingNonces k !! addrStr.
Proof.
  intros Hne. unfold AddPendingNonce. cbn [pendingNonces].
  by rewrite lookup_alter_ne, lookup_insert_ne.
Qed.

Lemma AddPendingNonce_completed k addr nonce :
  completedNonces (AddPendingNonce k addr nonce) = completedNonces k.
Proof. reflexivity. Qed.

Lemma RemovePendingNonce_zeroAddress k nonce success :
  RemovePendingNonce k zeroAddress nonce success = k.
Proof. unfold RemovePendingNonce. by rewrite decide_True. Qed.

Lemma CalculateNextNonce_pending (fuel : nat) k (ctx : Context) addr
    (includePending : bool) (r : N) (k' : Keeper) :
  CalculateNextNonce fuel k ctx addr includePending = Some (r, k') →
  pendingNonces k' = pendingNonces k.
Proof.
  unfold CalculateNextNonce. destruct includePending; cbn [negb].
  - destruct (gapScan _ _ _ _ _) as [[n cn]|]; [|discriminate].
    by intros [= _ <-].
  - by intros [= _ <-].
Qed.

Lemma CalculateNextNonce_returns k (ctx : Context) addr :
  N.of_nat (length (pendingOf k addr)) ≤ maxInt →
  N.of_nat (length (evictList (completedNonces k))) ≤ maxInt →
  ∃ (fuel : nat) (r : N) (k' : Keeper),
    ∀ fuel' : nat, (fuel ≤ fuel')%nat →
      CalculateNextNonce fuel' k ctx addr true = Some (r, k').
Proof.
  intros Hlen Hcache.
  assert (N.of_nat (length (pendingOf k addr))
          + N.of_nat (length (evictList (completedNonces k))) < two64)
    as Hbound.
  { unfold maxInt in *. unfold two64.
    change (2 ^ 64) with (2 * 2 ^ 63). lia. }
  destruct (gapScan_terminates _ _ addr (GetNonce ctx addr) Hbound)
    as [[r cn'] Hrun].
  eexists _, r, (mkKeeper (pendingNonces k) cn').
  intros fuel' Hfuel. unfold CalculateNextNonce. cbn [negb].
  fold (pendingOf k addr).
  by rewrite (gapScan_mono _ fuel' _ _ _ _ _ Hrun Hfuel).
Qed.

Lemma AddPendingNonce_sorted k addr nonce :
  sortedPending k → sortedPending (AddPendingNonce k addr nonce).
Proof.
  intros Hk a s. destruct (decide (a = Hex addr)) as [->|Hne].
  - rewrite AddPendingNonce_lookup. intros [= <-]. apply slicesSort_Sorted.
  - rewrite AddPendingNonce_lookup_ne by done. apply Hk.
Qed.

Lemma RemovePendingNonce_sorted k addr nonce (success : bool) :
  sortedPending k → sortedPending (RemovePendingNonce k addr nonce success).
Proof.
  intros Hk. unfold RemovePendingNonce. case_decide; [done|].
  destruct (pendingNonces k !! Hex addr) as [s|] eqn:Hs; [|exact Hk].
  intros a l. cbn [pendingNonces].
  apply removeLoop_sorted; [exact Hk|by eapply Hk].
Qed.

Lemma CalculateNextNonce_sorted (fuel : nat) k (ctx : Context) addr
    (includePending : bool) (r : N) (k' : Keeper) :
  sortedPending k →
  CalculateNextNonce fuel k ctx addr includePending = Some (r, k') →
  sortedPending k'.
Proof.
  intros Hk Hrun a s. rewrite (CalculateNextNonce_pending _ _ _ _ _ _ _ Hrun).
  apply Hk.
Qed.

Lemma RemovePendingNonce_completed k addr nonce (success : bool) :
  completedNonces (RemovePendingNonce k addr nonce success)
  = if decide (addr = zeroAddress) then completedNonces k
    else if success
         then Add (completedNonces k) (nonceCacheKey addr nonce)
         else completedNonces k.
Proof.
  unfold RemovePendingNonce. case_decide; [done|].
  by destruct (pendingNonces k !! Hex addr).
Qed.

Lemma pairKey_inj (p q : Address * N) : pairKey p = pairKey q → p = q.
Proof.
  destruct p as [a1 n1], q as [a2 n2]. unfold pairKey. cbn [fst snd].
  intros [-> ->]%nonceCacheKey_inj. reflexivity.
Qed.

Lemma pairKey_NoDup (ps : list (Address * N)) :
  NoDup ps → NoDup (pairKey <$> ps).
Proof.
  apply NoDup_fmap_2_strong. intros p q _ _. apply pairKey_inj.
Qed.

Lemma Hex_zeroAddress :
  Hex zeroAddress = "0x0000000000000000000000000000000000000000"%string.
Proof. vm_compute. reflexivity. Qed.

Lemma Hex_sampleAddress :
  Hex sampleAddress = "0x1111111111111111111111111111111111111111"%string.
Proof. vm_compute. reflexivity. Qed.

End Operations.

(** ** Properties of the nonce allocator *)

(** C1. [AddPendingNonce] has no guard for the null address, unlike
    [RemovePendingNonce]: a reservation for [zeroAddress] is stored in the
    pending table under its text form, it changes what a following
    [CalculateNextNonce] suggests (1 instead of 0 on a fresh keeper with
    committed nonce 0), and no [RemovePendingNonce] ever takes it out. *)
Theorem AddPendingNonce_tracks_zeroAddress :
  (∀ (k : Keeper) (n : N),
      ∃ s, pendingNonces (AddPendingNonce k zeroAddress n) !! Hex zeroAddress
           = Some s ∧ n ∈ s)
  ∧ pendingNonces emptyKeeper !! Hex zeroAddress = None
  ∧ pendingNonces (AddPendingNonce emptyKeeper zeroAddress 0)
      !! Hex zeroAddress = Some [0]
  ∧ fst <$> CalculateNextNonce 2 emptyKeeper (ledger 0) zeroAddress true
    = Some 0
  ∧ fst <$> CalculateNextNonce 2 (AddPendingNonce emptyKeeper zeroAddress 0)
              (ledger 0) zeroAddress true
    = Some 1
  ∧ (∀ (k : Keeper) (n : N) (success : bool),
        RemovePendingNonce k zeroAddress n success = k).
Proof.
  split; [|split; [|split; [|split; [|split]]]].
  - intros k n. eexists. split; [apply AddPendingNonce_lookup|].
    apply slicesSort_elem, elem_of_app. right. constructor.
  - reflexivity.
  - vm_compute. reflexivity.
  - vm_compute. reflexivity.
  - vm_compute. reflexivity.
  - apply RemovePendingNonce_zeroAddress.
Qed.

(** C2. The failure branch of [RemovePendingNonce] takes the element out
    but, unlike the success branch, does not delete the key when the slice
    becomes empty: after reserving 6 for an address and releasing it with
    [success = false], the address is still a key of the pending table,
    with an empty slice.  The success branch on the same state deletes the
    key. *)
Theorem RemovePendingNonce_failure_keeps_empty_slice :
  pendingNonces (AddPendingNonce emptyKeeper sampleAddress 6)
    !! Hex sampleAddress = Some [6]
  ∧ pendingNonces
      (RemovePendingNonce (AddPendingNonce emptyKeeper sampleAddress 6)
         sampleAddress 6 false)
      !! Hex sampleAddress = Some []
  ∧ pendingNonces
      (RemovePendingNonce (AddPendingNonce emptyKeeper sampleAddress 6)
         sampleAddress 6 true)
      !! Hex sampleAddress = None.
Proof.
  split; [|split]; vm_compute; reflexivity.
Qed.

Ltac by_decide := apply (bool_decide_unpack _); vm_compute; exact I.

Ltac decide_comparisons :=
  repeat match goal with
         | |- context [N.eqb ?a ?b] => destruct (N.eqb_spec a b); try lia
         | |- context [N.ltb ?a ?b] => destruct (N.ltb_spec a b); try lia
         end;
  try reflexivity.

(** C3. With [includePending = true] and an ascending pending slice,
    [CalculateNextNonce] returns the first candidate of the probe sequence
    [latest, latest + 1, ...] (increments wrap at [2^64]) that is neither
    in the pending slice of the address nor in the completed cache: every
    earlier candidate is in one of the two.  When the probe does not wrap
    the result is the least value from [latest] on that is in neither.  The
    result is returned for every large enough iteration bound, and the
    pending table is left as it was.  With committed nonce [C], pending
    [C, C+1, C+3] and [C+2] completed, the result is [C+4].  With
    [includePending = false] the committed nonce is returned at once and
    the keeper is untouched. *)
Theorem CalculateNextNonce_gap_scan :
  (∀ (k : Keeper) (ctx : Context) (addr : Address),
      Sorted N.le (pendingOf k addr) →
      N.of_nat (length (pendingOf k addr)) ≤ maxInt →
      N.of_nat (length (evictList (completedNonces k))) ≤ maxInt →
      ∃ (fuel j : nat) (k' : Keeper),
        (∀ fuel' : nat, (fuel ≤ fuel')%nat →
           CalculateNextNonce fuel' k ctx addr true
           = Some (probe (GetNonce ctx addr) j, k'))
        ∧ ¬ taken (pendingOf k addr) (completedNonces k) addr
              (probe (GetNonce ctx addr) j)
        ∧ (∀ i : nat, (i < j)%nat →
             taken (pendingOf k addr) (completedNonces k) addr
               (probe (GetNonce ctx addr) i))
        ∧ (GetNonce ctx addr + N.of_nat j < two64 →
           probe (GetNonce ctx addr) j = GetNonce ctx addr + N.of_nat j
           ∧ ∀ n : N, GetNonce ctx addr ≤ n < GetNonce ctx addr + N.of_nat j →
               taken (pendingOf k addr) (completedNonces k) addr n)
        ∧ pendingNonces k' = pendingNonces k)
  ∧ (∀ (k : Keeper) (ctx : Context) (addr : Address) (C : N),
        GetNonce ctx addr = C → C + 4 < two64 →
        pendingNonces k !! Hex addr = Some [C; C + 1; C + 3] →
        nonceCacheKey addr (C + 2) ∈ evictList (completedNonces k) →
        nonceCacheKey addr (C + 4) ∉ evictList (completedNonces k) →
        ∃ k' : Keeper,
          CalculateNextNonce 5 k ctx addr true = Some (C + 4, k'))
  ∧ (∀ (fuel : nat) (k : Keeper) (ctx : Context) (addr : Address),
        CalculateNextNonce fuel k ctx addr false
        = Some (GetNonce ctx addr, k)).
Proof.
  split; [|split].
  - intros k ctx addr Hsorted Hlen Hcache.
    set (pending := pendingOf k addr) in *.
    set (cn := completedNonces k) in *.
    set (latest := GetNonce ctx addr).
    assert (N.of_nat (length pending) + N.of_nat (length (evictList cn))
            < two64) as Hbound.
    { unfold maxInt in *. unfold two64.
      change (2 ^ 64) with (2 * 2 ^ 63). lia. }
    destruct (gapScan_terminates pending cn addr latest Hbound)
      as [[r cn'] Hrun].
    destruct (gapScan_Some _ _ _ _ _ _ _ Hrun)
      as (j & Hj & -> & Hfree & Hbefore & _ & _).
    exists (S (length pending + length (evictList cn))), j,
      (mkKeeper (pendingNonces k) cn').
    split; [|split; [|split; [|split]]].
    + intros fuel' Hfuel. unfold CalculateNextNonce. cbn [negb].
      fold (pendingOf k addr). fold pending. fold cn. fold latest.
      by rewrite (gapScan_mono _ fuel' _ _ _ _ _ Hrun Hfuel).
    + intros Htaken. apply Hfree. by apply taken_blocked.
    + intros i Hi. by apply blocked_taken, Hbefore.
    + intros Hnowrap. split; [by apply probe_small|].
      intros n [Hlo Hhi].
      replace n with (probe latest (N.to_nat (n - latest))).
      * apply blocked_taken, Hbefore. lia.
      * rewrite probe_small by lia. lia.
    + reflexivity.
  - intros k ctx addr C HC Hlt Hpending Hin Hnotin.
    unfold CalculateNextNonce. cbn [negb]. rewrite Hpending, HC.
    cbn [default from_option id].
    set (pending := [C; C + 1; C + 3]).
    set (cn := completedNonces k) in *.
    assert (∀ n : N, n + 1 < two64 → wrap64 (n + 1) = n + 1) as Hwrap.
    { intros n Hn. unfold wrap64. by rewrite N.mod_small. }
    rewrite gapScan_step_pending
      by (subst pending; cbn [sortedListContains]; decide_comparisons).
    rewrite Hwrap by lia.
    rewrite gapScan_step_pending
      by (subst pending; cbn [sortedListContains]; decide_comparisons).
    rewrite Hwrap by lia.
    replace (C + 1 + 1) with (C + 2) by lia.
    rewrite gapScan_step_hit;
      [|subst pending; cbn [sortedListContains]; decide_comparisons|done].
    rewrite Hwrap by lia.
    replace (C + 2 + 1) with (C + 3) by lia.
    rewrite gapScan_step_pending
      by (subst pending; cbn [sortedListContains]; decide_comparisons).
    rewrite Hwrap by lia.
    replace (C + 3 + 1) with (C + 4) by lia.
    rewrite gapScan_step_free;
      [|subst pending; cbn [sortedListContains]; decide_comparisons
       |by rewrite Contains_keys].
    by eexists.
  - reflexivity.
Qed.

Lemma CalculateNextNonce_gap_scan_witness :
  (Sorted N.le (pendingOf gapKeeper sampleAddress)
   ∧ N.of_nat (length (pendingOf gapKeeper sampleAddress)) ≤ maxInt
   ∧ N.of_nat (length (evictList (completedNonces gapKeeper))) ≤ maxInt
   ∧ ∃ (fuel j : nat) (k' : Keeper),
       (∀ fuel' : nat, (fuel ≤ fuel')%nat →
          CalculateNextNonce fuel' gapKeeper (ledger 7) sampleAddress true
          = Some (probe 7 j, k'))
       ∧ ¬ taken (pendingOf gapKeeper sampleAddress)
             (completedNonces gapKeeper) sampleAddress (probe 7 j))
  ∧ (7 + 4 < two64
     ∧ pendingNonces gapKeeper !! Hex sampleAddress = Some [7; 7 + 1; 7 + 3]
     ∧ nonceCacheKey sampleAddress (7 + 2)
         ∈ evictList (completedNonces gapKeeper)
     ∧ (nonceCacheKey sampleAddress (7 + 4)
          ∉ evictList (completedNonces gapKeeper))
     ∧ ∃ k' : Keeper,
         CalculateNextNonce 5 gapKeeper (ledger 7) sampleAddress true
         = Some (7 + 4, k')).
Proof.
  assert (Sorted N.le (pendingOf gapKeeper sampleAddress)) as H1 by by_decide.
  assert (N.of_nat (length (pendingOf gapKeeper sampleAddress)) ≤ maxInt)
    as H2 by by_decide.
  assert (N.of_nat (length (evictList (completedNonces gapKeeper))) ≤ maxInt)
    as H3 by by_decide.
  assert (7 + 4 < two64) as H4 by by_decide.
  assert (pendingNonces gapKeeper !! Hex sampleAddress
          = Some [7; 7 + 1; 7 + 3]) as H5 by (vm_compute; reflexivity).
  assert (nonceCacheKey sampleAddress (7 + 2)
            ∈ evictList (completedNonces gapKeeper)) as H6 by by_decide.
  assert (nonceCacheKey sampleAddress (7 + 4)
            ∉ evictList (completedNonces gapKeeper)) as H7 by by_decide.
  split.
  - split; [exact H1|]. split; [exact H2|]. split; [exact H3|].
    destruct (proj1 CalculateNextNonce_gap_scan gapKeeper (ledger 7)
                sampleAddress H1 H2 H3)
      as (fuel & j & k' & Hrun & Hfree & _).
    exists fuel, j, k'. split; [exact Hrun | exact Hfree].
  - split; [exact H4|]. split; [exact H5|]. split; [exact H6|].
    split; [exact H7|].
    exact (proj1 (proj2 CalculateNextNonce_gap_scan) gapKeeper (ledger 7)
             sampleAddress 7 eq_refl H4 H5 H6 H7).
Defined.



(** C5. [RemovePendingNonce] with [success = false] never changes the
    completed cache.  For a non-null address it takes the first element
    equal to [nonce] out of the address's pending slice and keeps the other
    elements in their order; when the slice has no such element, or the
    address has no slice, the pending table is unchanged.  From [5, 6, 7],
    releasing 6 leaves [5, 7].  (For the null address the call returns at
    its guard and the keeper is unchanged.) *)
Theorem RemovePendingNonce_failure_removes_one :
  ∀ (k : Keeper) (addr : Address) (nonce : N),
    addr ≠ zeroAddress →
    completedNonces (RemovePendingNonce k addr nonce false)
    = completedNonces k
    ∧ (pendingNonces k !! Hex addr = None →
       pendingNonces (RemovePendingNonce k addr nonce false)
       = pendingNonces k)
    ∧ (∀ s : list N,
          pendingNonces k !! Hex addr = Some s → nonce ∉ s →
          pendingNonces (RemovePendingNonce k addr nonce false)
          = pendingNonces k)
    ∧ (∀ pre post : list N,
          pendingNonces k !! Hex addr = Some (pre ++ nonce :: post) →
          nonce ∉ pre →
          pendingNonces (RemovePendingNonce k addr nonce false)
          = <[Hex addr := pre ++ post]> (pendingNonces k))
    ∧ (pendingNonces k !! Hex addr = Some [5; 6; 7] → nonce = 6 →
       pendingNonces (RemovePendingNonce k addr nonce false) !! Hex addr
       = Some [5; 7])
    ∧ (∀ n : N, RemovePendingNonce k zeroAddress n false = k).
Proof.
  intros k addr nonce Hnz.
  assert (∀ pre post : list N,
          pendingNonces k !! Hex addr = Some (pre ++ nonce :: post) →
          nonce ∉ pre →
          pendingNonces (RemovePendingNonce k addr nonce false)
          = <[Hex addr := pre ++ post]> (pendingNonces k)) as Hone.
  { intros pre post Hs Hpre.
    unfold RemovePendingNonce. rewrite decide_False by done. rewrite Hs.
    cbn [pendingNonces].
    exact (removeLoop_failure_hit (pendingNonces k) (Hex addr)
             (pre ++ nonce :: post) nonce [] pre post eq_refl Hpre). }
  split; [|split; [|split; [|split; [exact Hone|split]]]].
  - unfold RemovePendingNonce. rewrite decide_False by done.
    by destruct (pendingNonces k !! Hex addr).
  - intros Hnone. unfold RemovePendingNonce. rewrite decide_False by done.
    by rewrite Hnone.
  - intros s Hs Hnot. unfold RemovePendingNonce.
    rewrite decide_False by done. rewrite Hs. cbn [pendingNonces].
    by apply removeLoop_failure_absent.
  - intros Hs ->. rewrite (Hone [5] [7] Hs); [apply lookup_insert_eq|].
    by intros [?|?%elem_of_nil]%elem_of_cons.
  - intros n. apply RemovePendingNonce_zeroAddress.
Qed.

Lemma RemovePendingNonce_failure_removes_one_witness :
  sampleAddress ≠ zeroAddress
  ∧ pendingNonces (pendingKeeper [5; 6; 7]) !! Hex sampleAddress
    = Some [5; 6; 7]
  ∧ pendingNonces (RemovePendingNonce (pendingKeeper [5; 6; 7])
                     sampleAddress 6 false) !! Hex sampleAddress
    = Some [5; 7]
  ∧ completedNonces (RemovePendingNonce (pendingKeeper [5; 6; 7])
                       sampleAddress 6 false)
    = completedNonces (pendingKeeper [5; 6; 7]).
Proof.
  assert (sampleAddress ≠ zeroAddress) as H1 by by_decide.
  assert (pendingNonces (pendingKeeper [5; 6; 7]) !! Hex sampleAddress
          = Some [5; 6; 7]) as H2 by apply lookup_singleton_eq.
  destruct (RemovePendingNonce_failure_removes_one
              (pendingKeeper [5; 6; 7]) sampleAddress 6 H1)
    as (Hcache & _ & _ & _ & Hex567 & _).
  split; [exact H1|]. split; [exact H2|].
  split; [exact (Hex567 H2 eq_refl) | exact Hcache].
Defined.

(** C6. After [AddPendingNonce k addr C], whatever the keeper [k] was,
    [CalculateNextNonce] with [includePending = true] does not return [C]
    for [addr], for any iteration bound; and when the lengths of the
    pending slice and of the cache fit Go's [int], the call does return a
    nonce, which differs from [C]. *)
Theorem reserve_then_suggest_avoids_collision :
  ∀ (k : Keeper) (ctx : Context) (addr : Address) (C : N),
    (∀ fuel : nat,
        fst <$> CalculateNextNonce fuel (AddPendingNonce k addr C) ctx addr
                  true
        ≠ Some C)
    ∧ (N.of_nat (length (pendingOf k addr)) < maxInt →
       N.of_nat (length (evictList (completedNonces k))) ≤ maxInt →
       ∃ (fuel : nat) (r : N) (k' : Keeper),
         (∀ fuel' : nat, (fuel ≤ fuel')%nat →
            CalculateNextNonce fuel' (AddPendingNonce k addr C) ctx addr true
            = Some (r, k'))
         ∧ r ≠ C).
Proof.
  intros k ctx addr C.
  assert (∀ fuel : nat,
            fst <$> CalculateNextNonce fuel (AddPendingNonce k addr C) ctx
                      addr true
            ≠ Some C) as Hsafe.
  { intros fuel. unfold CalculateNextNonce. cbn [negb].
    rewrite AddPendingNonce_lookup. cbn [default from_option id].
    destruct (gapScan _ _ _ _ _) as [[r cn']|] eqn:Hrun; [|discriminate].
    cbn. intros [= ->].
    apply gapScan_Some in Hrun as (_ & _ & _ & Hfree & _).
    apply Hfree. left.
    apply sortedListContains_sorted; [apply slicesSort_Sorted|].
    apply slicesSort_elem, elem_of_app. right. constructor. }
  split; [exact Hsafe|].
  intros Hlen Hcache.
  destruct (CalculateNextNonce_returns (AddPendingNonce k addr C) ctx addr)
    as (fuel & r & k' & Hrun).
  - unfold pendingOf. rewrite AddPendingNonce_lookup.
    cbn [default from_option id].
    rewrite (Permutation_length (slicesSort_Permutation _)), length_app.
    fold (pendingOf k addr). cbn [length]. lia.
  - exact Hcache.
  - exists fuel, r, k'. split; [exact Hrun|].
    intros ->. apply (Hsafe fuel). by rewrite Hrun.
Qed.

Lemma reserve_then_suggest_avoids_collision_witness :
  N.of_nat (length (pendingOf gapKeeper sampleAddress)) < maxInt
  ∧ N.of_nat (length (evictList (completedNonces gapKeeper))) ≤ maxInt
  ∧ fst <$> CalculateNextNonce 6 (AddPendingNonce gapKeeper sampleAddress 11)
              (ledger 7) sampleAddress true
    ≠ Some 11
  ∧ fst <$> CalculateNextNonce 6 (AddPendingNonce gapKeeper sampleAddress 11)
              (ledger 7) sampleAddress true
    = Some 12
  ∧ ∃ (fuel : nat) (r : N) (k' : Keeper),
      (∀ fuel' : nat, (fuel ≤ fuel')%nat →
         CalculateNextNonce fuel' (AddPendingNonce gapKeeper sampleAddress 11)
           (ledger 7) sampleAddress true
         = Some (r, k'))
      ∧ r ≠ 11.
Proof.
  assert (N.of_nat (length (pendingOf gapKeeper sampleAddress)) < maxInt)
    as H1 by by_decide.
  assert (N.of_nat (length (evictList (completedNonces gapKeeper))) ≤ maxInt)
    as H2 by by_decide.
  destruct (reserve_then_suggest_avoids_collision gapKeeper (ledger 7)
              sampleAddress 11) as [Hsafe Hlive].
  split; [exact H1|]. split; [exact H2|]. split; [exact (Hsafe 6%nat)|].
  split; [vm_compute; reflexivity | exact (Hlive H1 H2)].
Defined.

(** C7. The loop of [CalculateNextNonce] with [includePending = true]
    terminates: for every keeper whose pending slice for the address and
    whose cache have lengths that fit Go's [int] (as every slice and list
    of the program has; the cache holds at most 100000 entries), every
    address and every committed nonce, there is an iteration bound from
    which on the call returns one and the same result.  The linear probe
    reaches that result after at most as many increments as the slice and
    the cache have entries; every candidate before it is found by the
    loop's test in the slice or in the cache, and the result is found in
    neither: [sortedListContains] denies it and the cache does not hold
    its key.  When the slice is ascending the result is no element of the
    slice at all. *)
Theorem CalculateNextNonce_terminates :
  ∀ (k : Keeper) (ctx : Context) (addr : Address),
    N.of_nat (length (pendingOf k addr)) ≤ maxInt →
    N.of_nat (length (evictList (completedNonces k))) ≤ maxInt →
    ∃ (fuel : nat) (r : N) (k' : Keeper),
      (∀ fuel' : nat, (fuel ≤ fuel')%nat →
         CalculateNextNonce fuel' k ctx addr true = Some (r, k'))
      ∧ ¬ blocked (pendingOf k addr) (completedNonces k) addr r
      ∧ sortedListContains (pendingOf k addr) r = false
      ∧ (nonceCacheKey addr r ∉ evictList (completedNonces k))
      ∧ (Sorted N.le (pendingOf k addr) →
         ¬ taken (pendingOf k addr) (completedNonces k) addr r)
      ∧ ∃ j : nat,
          r = probe (GetNonce ctx addr) j
          ∧ (j ≤ length (pendingOf k addr)
                 + length (evictList (completedNonces k)))%nat
          ∧ ∀ i : nat, (i < j)%nat →
              blocked (pendingOf k addr) (completedNonces k) addr
                (probe (GetNonce ctx addr) i).
Proof.
  intros k ctx addr Hlen Hcache.
  set (pending := pendingOf k addr) in *.
  set (cn := completedNonces k) in *.
  set (latest := GetNonce ctx addr).
  assert (N.of_nat (length pending) + N.of_nat (length (evictList cn))
          < two64) as Hbound.
  { unfold maxInt in *. unfold two64.
    change (2 ^ 64) with (2 * 2 ^ 63). lia. }
  destruct (gapScan_terminates pending cn addr latest Hbound)
    as [[r cn'] Hrun].
  destruct (gapScan_Some _ _ _ _ _ _ _ Hrun)
    as (j & Hj & Hr & Hfree & Hbefore & _ & _).
  exists (S (length pending + length (evictList cn))), r,
    (mkKeeper (pendingNonces k) cn').
  split; [|split; [exact Hfree|split; [|split; [|split]]]].
  - intros fuel' Hfuel. unfold CalculateNextNonce. cbn [negb].
    fold (pendingOf k addr). fold pending. fold cn. fold latest.
    by rewrite (gapScan_mono _ fuel' _ _ _ _ _ Hrun Hfuel).
  - apply not_true_is_false. intros Hin. apply Hfree. by left.
  - intros Hin. apply Hfree. by right.
  - intros Hsorted Htaken. apply Hfree. by apply taken_blocked.
  - exists j. split; [exact Hr|]. split; [lia|exact Hbefore].
Qed.

Lemma CalculateNextNonce_terminates_witness :
  N.of_nat (length (pendingOf gapKeeper sampleAddress)) ≤ maxInt
  ∧ N.of_nat (length (evictList (completedNonces gapKeeper))) ≤ maxInt
  ∧ ∃ (fuel : nat) (r : N) (k' : Keeper),
      (∀ fuel' : nat, (fuel ≤ fuel')%nat →
         CalculateNextNonce fuel' gapKeeper (ledger 7) sampleAddress true
         = Some (r, k'))
      ∧ ¬ blocked (pendingOf gapKeeper sampleAddress)
            (completedNonces gapKeeper) sampleAddress r
      ∧ (nonceCacheKey sampleAddress r
           ∉ evictList (completedNonces gapKeeper)).
Proof.
  assert (N.of_nat (length (pendingOf gapKeeper sampleAddress)) ≤ maxInt)
    as H1 by by_decide.
  assert (N.of_nat (length (evictList (completedNonces gapKeeper))) ≤ maxInt)
    as H2 by by_decide.
  split; [exact H1|]. split; [exact H2|].
  destruct (CalculateNextNonce_terminates gapKeeper (ledger 7) sampleAddress
              H1 H2)
    as (fuel & r & k' & Hrun & Hfree & _ & Hcache & _).
  exists fuel, r, k'. split; [exact Hrun|]. split; [exact Hfree|exact Hcache].
Defined.

(** C8. Every operation keeps every pending slice in ascending order: if
    all slices of the pending table are ascending, they still are after
    [AddPendingNonce], after [RemovePendingNonce] with either outcome, and
    after [CalculateNextNonce].  Moreover, whatever the keeper was, the
    slice of the address after [AddPendingNonce] is the ascending
    arrangement of the old slice with the new nonce appended. *)
Theorem operations_preserve_sortedPending :
  ∀ k : Keeper,
    sortedPending k →
    (∀ (addr : Address) (nonce : N),
        sortedPending (AddPendingNonce k addr nonce))
    ∧ (∀ (addr : Address) (nonce : N) (success : bool),
          sortedPending (RemovePendingNonce k addr nonce success))
    ∧ (∀ (fuel : nat) (ctx : Context) (addr : Address)
         (includePending : bool) (r : N) (k' : Keeper),
          CalculateNextNonce fuel k ctx addr includePending = Some (r, k') →
          sortedPending k')
    ∧ (∀ (addr : Address) (nonce : N),
          Sorted N.le (pendingOf (AddPendingNonce k addr nonce) addr)
          ∧ pendingOf (AddPendingNonce k addr nonce) addr
            ≡ₚ pendingOf k addr ++ [nonce]).
Proof.
  intros k Hk. split; [|split; [|split]].
  - intros addr nonce. by apply AddPendingNonce_sorted.
  - intros addr nonce success. by apply RemovePendingNonce_sorted.
  - intros fuel ctx addr b r k'. by apply CalculateNextNonce_sorted.
  - intros addr nonce. unfold pendingOf at 1 2.
    rewrite AddPendingNonce_lookup. cbn [default from_option id].
    split; [apply slicesSort_Sorted | apply slicesSort_Permutation].
Qed.

Lemma operations_preserve_sortedPending_witness :
  sortedPending (pendingKeeper [5; 6; 7])
  ∧ sortedPending (AddPendingNonce (pendingKeeper [5; 6; 7]) sampleAddress 3)
  ∧ sortedPending
      (RemovePendingNonce (pendingKeeper [5; 6; 7]) sampleAddress 6 true)
  ∧ sortedPending
      (RemovePendingNonce (pendingKeeper [5; 6; 7]) sampleAddress 6 false).
Proof.
  assert (sortedPending (pendingKeeper [5; 6; 7])) as H1.
  { intros a s Hs. unfold pendingKeeper in Hs. cbn [pendingNonces] in Hs.
    apply lookup_singleton_Some in Hs as [_ <-]. by_decide. }
  destruct (operations_preserve_sortedPending (pendingKeeper [5; 6; 7]) H1)
    as (Hadd & Hremove & _).
  split; [exact H1|]. split; [exact (Hadd sampleAddress 3)|].
  split; [exact (Hremove sampleAddress 6 true)
         |exact (Hremove sampleAddress 6 false)].
Defined.

(** Every keeper that the operations produce from a new keeper has
    ascending pending slices. *)
Corollary reachable_sortedPending (k : Keeper) :
  reachable k → sortedPending k.
Proof.
  induction 1 as [|k addr nonce _ IH|k addr nonce success _ IH
                  |k fuel ctx addr b r k' _ IH Hrun].
  - intros a s. unfold emptyKeeper. cbn [pendingNonces].
    by rewrite lookup_empty.
  - by apply AddPendingNonce_sorted.
  - by apply RemovePendingNonce_sorted.
  - by eapply CalculateNextNonce_sorted.
Qed.

(** C9. The completed cache as section 4.2 of the specification describes
    it.  The keeper's cache is created empty with capacity 100000.  A
    [Contains] hit makes the key the most recently used entry and leaves
    the other entries in their order.  After the keys of [capacity + 1]
    pairwise distinct (address, nonce) pairs have been added to a new cache,
    the first pair, the least recently touched one, is no longer reported
    present, and all later ones are.  The touch matters: when the cache has
    been filled and the first pair is then looked up with [Contains], the
    next insertion evicts the second pair and keeps the first. *)
Theorem completed_cache_recency :
  (NewKeeper = Some emptyKeeper
   ∧ size (completedNonces emptyKeeper) = 100000
   ∧ evictList (completedNonces emptyKeeper) = [])
  ∧ (∀ (c : LRU) (key : string),
        key ∈ evictList c →
        (Contains c key).1 = true
        ∧ head (evictList (Contains c key).2) = Some key
        ∧ size (Contains c key).2 = size c
        ∧ filter (λ k, k ≠ key) (evictList (Contains c key).2)
          = filter (λ k, k ≠ key) (evictList c))
  ∧ (∀ (cap : N) (c0 : LRU) (first : Address * N)
       (rest : list (Address * N)),
        NewLRU cap = Some c0 →
        NoDup (first :: rest) →
        N.of_nat (length rest) = cap →
        (Contains (addAll c0 (pairKey <$> first :: rest)) (pairKey first)).1
        = false
        ∧ ∀ p : Address * N,
            p ∈ rest →
            (Contains (addAll c0 (pairKey <$> first :: rest)) (pairKey p)).1
            = true)
  ∧ (∀ (cap : N) (c0 : LRU) (first second : Address * N)
       (rest : list (Address * N)) (extra : Address * N),
        NewLRU cap = Some c0 →
        NoDup (extra :: first :: second :: rest) →
        N.of_nat (length (first :: second :: rest)) = cap →
        (Contains (addAll c0 (pairKey <$> first :: second :: rest))
           (pairKey first)).1 = true
        ∧ (Contains
             (Add (Contains (addAll c0 (pairKey <$> first :: second :: rest))
                     (pairKey first)).2
                  (pairKey extra))
             (pairKey first)).1 = true
        ∧ (Contains
             (Add (Contains (addAll c0 (pairKey <$> first :: second :: rest))
                     (pairKey first)).2
                  (pairKey extra))
             (pairKey second)).1 = false).
Proof.
  split; [by repeat split|]. split; [|split].
  - intros c key Hin. rewrite Contains_hit by done. cbn [fst snd evictList size].
    split; [done|]. split; [done|]. split; [done|].
    rewrite filter_cons_False by (intros Hne; by apply Hne).
    apply filter_ne_idemp.
  - intros cap c0 first rest Hnew Hnd Hlen.
    unfold NewLRU in Hnew. destruct (N.eqb_spec cap 0) as [|Hcap]; [done|].
    injection Hnew as <-.
    assert (evictList (addAll (mkLRU cap []) (pairKey <$> first :: rest))
            = reverse (pairKey <$> rest)) as Hlist.
    { rewrite addAll_fresh; [|lia|by apply pairKey_NoDup].
      rewrite fmap_cons, reverse_cons.
      apply take_app_length'. rewrite length_reverse, length_fmap. lia. }
    apply NoDup_cons in Hnd as [Hfirst Hnd].
    split.
    + apply not_true_is_false. rewrite Contains_true, Hlist, elem_of_reverse.
      intros (p & Hp & Hin)%list_elem_of_fmap.
      apply pairKey_inj in Hp as <-. done.
    + intros p Hp. rewrite Contains_true, Hlist, elem_of_reverse.
      by apply list_elem_of_fmap_2.
  - intros cap c0 first second rest extra Hnew Hnd Hlen.
    unfold NewLRU in Hnew. destruct (N.eqb_spec cap 0) as [|Hcap]; [done|].
    injection Hnew as <-.
    apply pairKey_NoDup in Hnd. rewrite !fmap_cons in Hnd.
    set (ke := pairKey extra) in *. set (k1 := pairKey first) in *.
    set (k2 := pairKey second) in *. set (ks := pairKey <$> rest) in *.
    apply NoDup_cons in Hnd as [He Hnd].
    pose proof Hnd as Hnd12.
    apply NoDup_cons in Hnd as [H1 Hnd]. apply NoDup_cons in Hnd as [H2 Hnd].
    apply not_elem_of_cons in He as [He1 He].
    apply not_elem_of_cons in He as [He2 He].
    apply not_elem_of_cons in H1 as [H12 H1].
    assert (length ks = length rest) as Hks by apply length_fmap.
    cbn [length] in Hlen.
    set (c := addAll (mkLRU cap []) (pairKey <$> first :: second :: rest)).
    assert (evictList c = reverse ks ++ [k2; k1]) as Hlist.
    { unfold c. rewrite !fmap_cons. fold k1 k2 ks.
      rewrite addAll_fresh; [|lia|done].
      rewrite take_ge by (rewrite length_reverse; cbn [length]; lia).
      rewrite !reverse_cons, <- app_assoc. done. }
    assert (size c = cap) as Hsize by apply addAll_size.
    assert (k1 ∈ evictList c) as Hin1.
    { rewrite Hlist, elem_of_app. right. by do 2 constructor. }
    split; [by apply Contains_true|].
    rewrite (Contains_hit c k1 Hin1). cbn [snd].
    set (touched := mkLRU (size c) (k1 :: filter (λ k, k ≠ k1) (evictList c))).
    assert (evictList touched = k1 :: reverse ks ++ [k2]) as Htouched.
    { unfold touched. cbn [evictList]. f_equal.
      rewrite Hlist, filter_app, filter_ne_fresh
        by (by rewrite elem_of_reverse).
      rewrite filter_cons_True by done.
      rewrite filter_cons_False by (intros Hne; by apply Hne).
      by rewrite filter_nil. }
    assert (evictList (Add touched ke) = ke :: k1 :: reverse ks) as Hfinal.
    { rewrite Add_fresh.
      2:{ rewrite Htouched, elem_of_cons, elem_of_app, elem_of_reverse,
            list_elem_of_singleton. intuition congruence. }
      rewrite Htouched. f_equal. unfold touched at 1. cbn [size].
      rewrite Hsize.
      assert (length (k1 :: reverse ks ++ [k2]) = S (S (length ks))) as Hl.
      { cbn [length]. rewrite length_app, length_reverse. cbn [length]. lia. }
      rewrite Hl.
      destruct (N.leb_spec cap (N.of_nat (S (S (length ks))))); [|lia].
      change (S (S (length ks)) - 1)%nat with (S (length ks) - 0)%nat.
      rewrite Nat.sub_0_r. cbn [take]. f_equal.
      apply take_app_length'. by rewrite length_reverse. }
    split.
    + apply Contains_true. rewrite Hfinal. by do 2 constructor.
    + apply not_true_is_false. rewrite Contains_true, Hfinal.
      rewrite !elem_of_cons, elem_of_reverse. intuition congruence.
Qed.

Lemma completed_cache_recency_witness :
  NewLRU 2 = Some (mkLRU 2 [])
  ∧ NoDup [(sampleAddress, 1); (sampleAddress, 2); (zeroAddress, 1)]
  ∧ N.of_nat (length [(sampleAddress, 2); (zeroAddress, 1)]) = 2
  ∧ (Contains
       (addAll (mkLRU 2 [])
          (pairKey <$> [(sampleAddress, 1); (sampleAddress, 2);
                        (zeroAddress, 1)]))
       (pairKey (sampleAddress, 1))).1 = false
  ∧ (Contains
       (Add (Contains
               (addAll (mkLRU 2 [])
                  (pairKey <$> [(sampleAddress, 1); (sampleAddress, 2)]))
               (pairKey (sampleAddress, 1))).2
            (pairKey (zeroAddress, 1)))
       (pairKey (sampleAddress, 2))).1 = false.
Proof.
  assert (NewLRU 2 = Some (mkLRU 2 [])) as H1 by reflexivity.
  assert (NoDup [(sampleAddress, 1); (sampleAddress, 2); (zeroAddress, 1)])
    as H2 by by_decide.
  assert (NoDup [(zeroAddress, 1); (sampleAddress, 1); (sampleAddress, 2)])
    as H3 by by_decide.
  assert (N.of_nat (length [(sampleAddress, 2); (zeroAddress, 1)]) = 2)
    as H4 by reflexivity.
  assert (N.of_nat (length [(sampleAddress, 1); (sampleAddress, 2)]) = 2)
    as H5 by reflexivity.
  destruct completed_cache_recency as (_ & _ & Hevict & Htouch).
  split; [exact H1|]. split; [exact H2|].
  split; [exact H4|]. split.
  - exact (proj1 (Hevict 2 (mkLRU 2 []) (sampleAddress, 1)
                    [(sampleAddress, 2); (zeroAddress, 1)] H1 H2 H4)).
  - exact (proj2 (proj2 (Htouch 2 (mkLRU 2 []) (sampleAddress, 1)
                           (sampleAddress, 2) [] (zeroAddress, 1) H1 H3 H5))).
Defined.

(** C10. [nonceCacheKey] is injective: two (address, nonce) pairs that
    differ in the address or in the nonce have different keys.  Hence a
    [RemovePendingNonce] for one pair cannot make another pair present in
    the completed cache: a pair reported present afterwards was present
    before. *)
Theorem nonceCacheKey_injective :
  ∀ (a1 : Address) (n1 : N) (a2 : Address) (n2 : N),
    a1 ≠ a2 ∨ n1 ≠ n2 →
    nonceCacheKey a1 n1 ≠ nonceCacheKey a2 n2
    ∧ ∀ (k : Keeper) (success : bool),
        (Contains (completedNonces (RemovePendingNonce k a1 n1 success))
           (nonceCacheKey a2 n2)).1 = true →
        (Contains (completedNonces k) (nonceCacheKey a2 n2)).1 = true.
Proof.
  intros a1 n1 a2 n2 Hdiff.
  assert (nonceCacheKey a1 n1 ≠ nonceCacheKey a2 n2) as Hkey.
  { intros [-> ->]%nonceCacheKey_inj. by destruct Hdiff. }
  split; [exact Hkey|].
  intros k success. rewrite !Contains_true, RemovePendingNonce_completed.
  case_decide; [done|]. destruct success; [|done].
  intros [Heq|Hin]%Add_keys; [by symmetry in Heq|done].
Qed.

Lemma nonceCacheKey_injective_witness :
  (sampleAddress ≠ sampleAddress ∨ (6 : N) ≠ 7)
  ∧ nonceCacheKey sampleAddress 6 ≠ nonceCacheKey sampleAddress 7
  ∧ (Contains
       (completedNonces
          (RemovePendingNonce (pendingKeeper [5; 6; 8]) sampleAddress 6 true))
       (nonceCacheKey sampleAddress 7)).1 = false.
Proof.
  assert (sampleAddress ≠ sampleAddress ∨ (6 : N) ≠ 7) as H1
    by (right; by_decide).
  destruct (nonceCacheKey_injective sampleAddress 6 sampleAddress 7 H1)
    as [Hkey Hcache].
  split; [exact H1|]. split; [exact Hkey|].
  apply not_true_is_false. intros Hafter.
  apply (Hcache (pendingKeeper [5; 6; 8]) true) in Hafter.
  vm_compute in Hafter. discriminate Hafter.
Defined.

(** ** Further properties of the pending table *)

Section PendingTable.

Implicit Types (k : Keeper) (addr : Address) (nonce : N).
Implicit Types (pn : gmap string (list N)) (s : list N).

Lemma removeLoop_lookup_ne pn (addrStr other : string) s nonce
    (success : bool) (i : nat) (rest : list N) :
  other ≠ addrStr →
  removeLoop pn addrStr s nonce success i rest !! other = pn !! other.
Proof.
  intros Hne. revert i.
  induction rest as [|n rest IH]; intros i; cbn [removeLoop]; [done|].
  destruct (success && (nonce <=? n)).
  { destruct (length (drop (S i) s) =? 0)%nat.
    - by rewrite lookup_delete_ne, lookup_insert_ne.
    - by rewrite lookup_insert_ne. }
  destruct (negb success && (n =? nonce)); [|apply IH].
  by rewrite lookup_insert_ne.
Qed.

Lemma removeLoop_lookup_sublist pn (addrStr : string) s nonce
    (success : bool) (i : nat) (rest : list N) :
  pn !! addrStr = Some s →
  default [] (removeLoop pn addrStr s nonce success i rest !! addrStr)
    `sublist_of` s.
Proof.
  intros Hs. revert i.
  induction rest as [|n rest IH]; intros i; cbn [removeLoop];
    [by rewrite Hs|].
  destruct (success && (nonce <=? n)).
  { destruct (length (drop (S i) s) =? 0)%nat.
    - rewrite lookup_delete_eq. apply sublist_nil_l.
    - rewrite lookup_insert_eq. apply sublist_drop. }
  destruct (negb success && (n =? nonce)); [|apply IH].
  rewrite lookup_insert_eq. cbn [default from_option id].
  rewrite <- (take_drop i s) at 3.
  apply sublist_app; [done|].
  replace (drop (S i) s) with (drop 1 (drop i s))
    by (rewrite drop_drop; f_equal; lia).
  apply sublist_drop.
Qed.

Lemma RemovePendingNonce_lookup_ne k addr nonce (success : bool)
    (other : string) :
  other ≠ Hex addr →
  pendingNonces (RemovePendingNonce k addr nonce success) !! other
  = pendingNonces k !! other.
Proof.
  intros Hne. unfold RemovePendingNonce. case_decide; [done|].
  destruct (pendingNonces k !! Hex addr) as [s|]; [|done].
  cbn [pendingNonces]. by apply removeLoop_lookup_ne.
Qed.

Lemma pendingOf_failure_hit k addr nonce (pre post : list N) :
  addr ≠ zeroAddress →
  pendingOf k addr = pre ++ nonce :: post → nonce ∉ pre →
  pendingOf (RemovePendingNonce k addr nonce false) addr = pre ++ post.
Proof.
  intros Hnz Hs Hpre. unfold pendingOf in *. unfold RemovePendingNonce.
  rewrite decide_False by done.
  destruct (pendingNonces k !! Hex addr) as [s|] eqn:Hlook;
    cbn [default from_option id] in Hs.
  - subst s. cbn [pendingNonces].
    pose proof (removeLoop_failure_hit (pendingNonces k) (Hex addr)
                  (pre ++ nonce :: post) nonce [] pre post eq_refl Hpre)
      as Hloop.
    cbn [length app] in Hloop. rewrite Hloop.
    by rewrite lookup_insert_eq.
  - by destruct pre.
Qed.

Lemma pendingOf_failure_absent k addr nonce :
  nonce ∉ pendingOf k addr →
  pendingOf (RemovePendingNonce k addr nonce false) addr = pendingOf k addr.
Proof.
  intros Hnot. unfold pendingOf in *. unfold RemovePendingNonce.
  case_decide; [done|].
  destruct (pendingNonces k !! Hex addr) as [s|] eqn:Hlook;
    cbn [default from_option id pendingNonces] in *; [|by rewrite Hlook].
  rewrite removeLoop_failure_absent by done. by rewrite Hlook.
Qed.

End PendingTable.

(** X1. On an ascending slice [sortedListContains] decides membership: it
    answers [true] exactly for the elements of the slice. *)
Theorem sortedListContains_decides_membership :
  ∀ (s : list N) (item : N),
    Sorted N.le s → (sortedListContains s item = true ↔ item ∈ s).
Proof.
  intros s item Hs. split.
  - apply sortedListContains_elem.
  - by apply sortedListContains_sorted.
Qed.

Lemma sortedListContains_decides_membership_witness :
  Sorted N.le [5; 6; 8]
  ∧ (sortedListContains [5; 6; 8] 6 = true ↔ 6 ∈ [5; 6; 8])
  ∧ (sortedListContains [5; 6; 8] 7 = true ↔ 7 ∈ [5; 6; 8]).
Proof.
  assert (Sorted N.le [5; 6; 8]) as H1 by by_decide.
  split; [exact H1|].
  split; [exact (sortedListContains_decides_membership [5; 6; 8] 6 H1)
         |exact (sortedListContains_decides_membership [5; 6; 8] 7 H1)].
Defined.

(** X2. The operations on one address leave the pending slices of every
    other address as they are: [Hex] gives different addresses different
    keys of the pending table. *)
Theorem pending_slices_are_isolated :
  ∀ (k : Keeper) (addr other : Address) (nonce : N) (success : bool),
    other ≠ addr →
    pendingNonces (AddPendingNonce k addr nonce) !! Hex other
    = pendingNonces k !! Hex other
    ∧ pendingNonces (RemovePendingNonce k addr nonce success) !! Hex other
      = pendingNonces k !! Hex other.
Proof.
  intros k addr other nonce success Hne.
  assert (Hex other ≠ Hex addr) as Hkey by (by intros ?%Hex_inj).
  split.
  - by apply AddPendingNonce_lookup_ne.
  - by apply RemovePendingNonce_lookup_ne.
Qed.

Lemma pending_slices_are_isolated_witness :
  zeroAddress ≠ sampleAddress
  ∧ pendingNonces (AddPendingNonce gapKeeper sampleAddress 11)
      !! Hex zeroAddress
    = pendingNonces gapKeeper !! Hex zeroAddress
  ∧ pendingNonces (RemovePendingNonce gapKeeper sampleAddress 8 true)
      !! Hex zeroAddress
    = pendingNonces gapKeeper !! Hex zeroAddress.
Proof.
  assert (zeroAddress ≠ sampleAddress) as H1 by by_decide.
  split; [exact H1|].
  split.
  - exact (proj1 (pending_slices_are_isolated gapKeeper sampleAddress
                    zeroAddress 11 true H1)).
  - exact (proj2 (pending_slices_are_isolated gapKeeper sampleAddress
                    zeroAddress 8 true H1)).
Defined.

Section PendingSliceContents.

Implicit Types (k : Keeper) (addr : Address) (nonce : N) (s : list N).

Lemma pendingOf_AddPendingNonce k addr nonce :
  pendingOf (AddPendingNonce k addr nonce) addr
  = slicesSort (pendingOf k addr ++ [nonce]).
Proof. unfold pendingOf at 1. by rewrite AddPendingNonce_lookup. Qed.

Lemma pendingOf_success_hit k addr nonce (pre : list N) (x : N)
    (post : list N) :
  addr ≠ zeroAddress →
  pendingOf k addr = pre ++ x :: post →
  Forall (λ y, y < nonce) pre → nonce ≤ x →
  pendingOf (RemovePendingNonce k addr nonce true) addr = post.
Proof.
  intros Hnz Hs Hpre Hx. unfold pendingOf in *. unfold RemovePendingNonce.
  rewrite decide_False by done.
  destruct (pendingNonces k !! Hex addr) as [s|] eqn:Hlook;
    cbn [default from_option id] in Hs; [|by destruct pre].
  cbn [pendingNonces].
  pose proof (removeLoop_success_hit (pendingNonces k) (Hex addr) s nonce
                [] pre x post Hs Hpre Hx) as Hloop.
  cbn [length app] in Hloop. rewrite <- Hs in Hloop. rewrite Hloop.
  destruct post as [|y post]; cbn [length Nat.eqb].
  - by rewrite lookup_delete_eq.
  - by rewrite lookup_insert_eq.
Qed.

Lemma filter_none (P : N → Prop) `{∀ x, Decision (P x)} s :
  Forall (λ y, ¬ P y) s → filter P s = [].
Proof.
  induction 1 as [|y s Hy _ IH]; [done|].
  by rewrite filter_cons_False.
Qed.

Lemma filter_all (P : N → Prop) `{∀ x, Decision (P x)} s :
  Forall P s → filter P s = s.
Proof.
  induction 1 as [|y s Hy _ IH]; [done|].
  rewrite filter_cons_True by done. by rewrite IH.
Qed.

Lemma Sorted_remove_middle s (pre post : list N) (x : N) :
  Sorted N.le (pre ++ x :: post) → Sorted N.le (pre ++ post).
Proof.
  intros Hs. pose proof (Sorted_delete_at _ (length pre) Hs) as Hd.
  rewrite take_app_length in Hd.
  replace (drop (S (length pre)) (pre ++ x :: post)) with post in Hd;
    [done|].
  rewrite (cons_middle x pre post), app_assoc.
  rewrite drop_app_length'; [done|]. rewrite length_app. simpl. lia.
Qed.

End PendingSliceContents.

(** X3. Reserving a nonce and then releasing it with [success = false]
    brings the pending slice of a non-null address back to what it was,
    when that slice was ascending; the completed cache is not touched. *)
Theorem reserve_then_release_restores_slice :
  ∀ (k : Keeper) (addr : Address) (nonce : N),
    addr ≠ zeroAddress →
    Sorted N.le (pendingOf k addr) →
    pendingOf (RemovePendingNonce (AddPendingNonce k addr nonce) addr nonce
                 false) addr
    = pendingOf k addr
    ∧ completedNonces (RemovePendingNonce (AddPendingNonce k addr nonce) addr
                         nonce false)
      = completedNonces k.
Proof.
  intros k addr nonce Hnz Hsorted. split.
  - assert (nonce ∈ pendingOf (AddPendingNonce k addr nonce) addr) as Hin.
    { rewrite pendingOf_AddPendingNonce, slicesSort_elem, elem_of_app.
      right. constructor. }
    apply list_elem_of_split_l in Hin as (pre & post & Heq & Hpre).
    rewrite (pendingOf_failure_hit _ _ _ pre post Hnz Heq Hpre).
    assert (Sorted N.le (pre ++ nonce :: post)) as Hs'.
    { rewrite <- Heq, pendingOf_AddPendingNonce. apply slicesSort_Sorted. }
    apply (Sorted_unique N.le);
      [by eapply Sorted_remove_middle | done |].
    apply (Permutation_cons_inv (a := nonce)).
    rewrite Permutation_middle, <- Heq, pendingOf_AddPendingNonce.
    rewrite slicesSort_Permutation. apply Permutation_app_comm.
  - rewrite RemovePendingNonce_completed. case_decide; done.
Qed.

Lemma reserve_then_release_restores_slice_witness :
  sampleAddress ≠ zeroAddress
  ∧ Sorted N.le (pendingOf gapKeeper sampleAddress)
  ∧ pendingOf (RemovePendingNonce (AddPendingNonce gapKeeper sampleAddress 9)
                 sampleAddress 9 false) sampleAddress
    = pendingOf gapKeeper sampleAddress.
Proof.
  assert (sampleAddress ≠ zeroAddress) as H1 by by_decide.
  assert (Sorted N.le (pendingOf gapKeeper sampleAddress)) as H2
    by by_decide.
  split; [exact H1|]. split; [exact H2|].
  exact (proj1 (reserve_then_release_restores_slice gapKeeper sampleAddress
                  9 H1 H2)).
Defined.

(** X4. A release takes out one occurrence and no more: when the nonce is
    in the pending slice of a non-null address, the slice after
    [RemovePendingNonce] with [success = false], with the nonce put back,
    is a rearrangement of the slice before.  A nonce reserved twice stays
    pending after one release. *)
Theorem release_removes_one_occurrence :
  ∀ (k : Keeper) (addr : Address) (nonce : N),
    addr ≠ zeroAddress →
    nonce ∈ pendingOf k addr →
    nonce :: pendingOf (RemovePendingNonce k addr nonce false) addr
    ≡ₚ pendingOf k addr.
Proof.
  intros k addr nonce Hnz Hin.
  apply list_elem_of_split_l in Hin as (pre & post & Heq & Hpre).
  rewrite (pendingOf_failure_hit _ _ _ pre post Hnz Heq Hpre), Heq.
  apply Permutation_middle.
Qed.

Lemma release_removes_one_occurrence_witness :
  sampleAddress ≠ zeroAddress
  ∧ 6 ∈ pendingOf (pendingKeeper [5; 6; 6]) sampleAddress
  ∧ 6 :: pendingOf (RemovePendingNonce (pendingKeeper [5; 6; 6])
                      sampleAddress 6 false) sampleAddress
    ≡ₚ pendingOf (pendingKeeper [5; 6; 6]) sampleAddress.
Proof.
  assert (sampleAddress ≠ zeroAddress) as H1 by by_decide.
  assert (6 ∈ pendingOf (pendingKeeper [5; 6; 6]) sampleAddress) as H2
    by by_decide.
  split; [exact H1|]. split; [exact H2|].
  exact (release_removes_one_occurrence (pendingKeeper [5; 6; 6])
           sampleAddress 6 H1 H2).
Defined.

(** X5. On a strictly ascending pending slice that holds the nonce, a
    retirement with [success = true] leaves exactly the reservations above
    the nonce, in their order. *)
Theorem success_retire_leaves_greater :
  ∀ (k : Keeper) (addr : Address) (nonce : N),
    addr ≠ zeroAddress →
    strictlySorted (pendingOf k addr) →
    nonce ∈ pendingOf k addr →
    pendingOf (RemovePendingNonce k addr nonce true) addr
    = filter (λ x, nonce < x) (pendingOf k addr).
Proof.
  intros k addr nonce Hnz Hs Hin.
  apply list_elem_of_split in Hin as (pre & post & Heq).
  unfold strictlySorted in Hs. rewrite Heq in Hs.
  apply Sorted_StronglySorted in Hs; [|apply _].
  assert (Forall (λ y, y < nonce) pre) as Hpre.
  { apply Forall_forall. intros y Hy.
    apply (StronglySorted_app_1_elem_of N.lt pre (nonce :: post)); try done.
    constructor. }
  assert (Forall (λ y, nonce < y) post) as Hpost.
  { apply Forall_forall. intros y Hy.
    apply (StronglySorted_app_1_elem_of N.lt (pre ++ [nonce]) post);
      [by rewrite <- app_assoc| |done].
    apply elem_of_app. right. constructor. }
  rewrite (pendingOf_success_hit k addr nonce pre nonce post Hnz Heq Hpre)
    by lia.
  rewrite Heq, filter_app, filter_none.
  2:{ eapply Forall_impl; [exact Hpre|]. intros y Hy Hlt.
      cbv beta in Hy. lia. }
  rewrite filter_cons_False by lia.
  by rewrite filter_all.
Qed.

Lemma success_retire_leaves_greater_witness :
  sampleAddress ≠ zeroAddress
  ∧ strictlySorted (pendingOf gapKeeper sampleAddress)
  ∧ 8 ∈ pendingOf gapKeeper sampleAddress
  ∧ pendingOf (RemovePendingNonce gapKeeper sampleAddress 8 true)
      sampleAddress
    = filter (λ x, 8 < x) (pendingOf gapKeeper sampleAddress).
Proof.
  assert (sampleAddress ≠ zeroAddress) as H1 by by_decide.
  assert (strictlySorted (pendingOf gapKeeper sampleAddress)) as H2
    by by_decide.
  assert (8 ∈ pendingOf gapKeeper sampleAddress) as H3 by by_decide.
  split; [exact H1|]. split; [exact H2|]. split; [exact H3|].
  exact (success_retire_leaves_greater gapKeeper sampleAddress 8 H1 H2 H3).
Defined.

(** X6. [RemovePendingNonce] never adds a reservation: for every address,
    the pending slice afterwards is obtained from the slice before by
    leaving elements out, so its elements were all pending before, in the
    same order, and it is not longer. *)
Theorem RemovePendingNonce_never_adds :
  ∀ (k : Keeper) (addr other : Address) (nonce : N) (success : bool),
    pendingOf (RemovePendingNonce k addr nonce success) other
    `sublist_of` pendingOf k other.
Proof.
  intros k addr other nonce success. unfold pendingOf.
  destruct (decide (Hex other = Hex addr)) as [->|Hne].
  - unfold RemovePendingNonce. case_decide; [done|].
    destruct (pendingNonces k !! Hex addr) as [s|] eqn:Hs;
      [|cbn [pendingNonces]; by rewrite Hs].
    cbn [pendingNonces default from_option id].
    by apply removeLoop_lookup_sublist.
  - by rewrite RemovePendingNonce_lookup_ne.
Qed.

(** ** Further properties of the suggestion *)

Section Suggestion.

Implicit Types (k : Keeper) (addr : Address) (nonce : N) (cn : LRU).

Lemma CalculateNextNonce_eq (fuel : nat) k (ctx : Context) addr :
  CalculateNextNonce fuel k ctx addr true
  = match gapScan fuel (pendingOf k addr) (completedNonces k) addr
            (GetNonce ctx addr) with
    | Some (n, cn) => Some (n, mkKeeper (pendingNonces k) cn)
    | None => None
    end.
Proof. reflexivity. Qed.

(** The scan only depends on which keys the cache holds, not on their
    order. *)
Lemma gapScan_ext (fuel : nat) (pending : list N) cn1 cn2 addr (n : N) :
  (∀ key, key ∈ evictList cn1 ↔ key ∈ evictList cn2) →
  fst <$> gapScan fuel pending cn1 addr n
  = fst <$> gapScan fuel pending cn2 addr n.
Proof.
  revert cn1 cn2 n. induction fuel as [|fuel IH]; intros cn1 cn2 n Hkeys;
    [done|].
  cbn [gapScan]. destruct (sortedListContains pending n); [by apply IH|].
  destruct (decide (nonceCacheKey addr n ∈ evictList cn1)) as [Hin|Hnot].
  - rewrite (Contains_hit cn1) by done.
    rewrite (Contains_hit cn2) by by apply Hkeys.
    apply IH. intros key. cbn [evictList].
    rewrite !elem_of_touch by (done || by apply Hkeys). apply Hkeys.
  - rewrite (Contains_miss cn1) by done.
    rewrite (Contains_miss cn2) by (by rewrite <- Hkeys).
    reflexivity.
Qed.

Lemma not_sortedListContains (s : list N) (item : N) :
  item ∉ s → sortedListContains s item = false.
Proof.
  intros Hnot. apply not_true_is_false. intros H. apply Hnot.
  by apply sortedListContains_elem.
Qed.

End Suggestion.

(** X7. A nonce that has just been retired with [success = true] for a
    non-null address is not suggested for that address: the completed
    cache holds its key. *)
Theorem retired_nonce_is_not_suggested :
  ∀ (fuel : nat) (k : Keeper) (ctx : Context) (addr : Address) (nonce : N),
    addr ≠ zeroAddress →
    fst <$> CalculateNextNonce fuel (RemovePendingNonce k addr nonce true)
              ctx addr true
    ≠ Some nonce.
Proof.
  intros fuel k ctx addr nonce Hnz. rewrite CalculateNextNonce_eq.
  destruct (gapScan _ _ _ _ _) as [[r cn']|] eqn:Hrun; [|discriminate].
  cbn. intros [= ->].
  apply gapScan_Some in Hrun as (_ & _ & _ & Hfree & _).
  apply Hfree. right. rewrite RemovePendingNonce_completed.
  rewrite decide_False by done. apply Add_elem.
Qed.

Lemma retired_nonce_is_not_suggested_witness :
  sampleAddress ≠ zeroAddress
  ∧ fst <$> CalculateNextNonce 5 (RemovePendingNonce gapKeeper sampleAddress
                                    7 true)
              (ledger 7) sampleAddress true
    ≠ Some 7
  ∧ fst <$> CalculateNextNonce 5 (RemovePendingNonce gapKeeper sampleAddress
                                    7 true)
              (ledger 7) sampleAddress true
    = Some 11.
Proof.
  assert (sampleAddress ≠ zeroAddress) as H1 by by_decide.
  split; [exact H1|]. split.
  - exact (retired_nonce_is_not_suggested 5 gapKeeper (ledger 7)
             sampleAddress 7 H1).
  - vm_compute. reflexivity.
Defined.

(** X8. A released nonce can be suggested again: when the pending slice of
    a non-null address has no element twice and the completed cache does
    not hold the nonce, then after [RemovePendingNonce] with
    [success = false] a suggestion that starts at that nonce returns it. *)
Theorem released_nonce_is_suggested_again :
  ∀ (fuel : nat) (k : Keeper) (ctx : Context) (addr : Address) (nonce : N),
    addr ≠ zeroAddress →
    NoDup (pendingOf k addr) →
    nonceCacheKey addr nonce ∉ evictList (completedNonces k) →
    GetNonce ctx addr = nonce →
    fst <$> CalculateNextNonce (S fuel)
              (RemovePendingNonce k addr nonce false) ctx addr true
    = Some nonce.
Proof.
  intros fuel k ctx addr nonce Hnz Hnd Hcache Hlatest.
  assert (nonce ∉ pendingOf (RemovePendingNonce k addr nonce false) addr)
    as Hgone.
  { destruct (decide (nonce ∈ pendingOf k addr)) as [Hin|Hnot].
    - apply list_elem_of_split_l in Hin as (pre & post & Heq & Hpre).
      rewrite (pendingOf_failure_hit _ _ _ pre post Hnz Heq Hpre).
      rewrite Heq in Hnd. apply NoDup_app in Hnd as (_ & _ & Hnd).
      apply NoDup_cons in Hnd as [Hpost _].
      rewrite elem_of_app. by intros [?|?].
    - by rewrite pendingOf_failure_absent. }
  rewrite CalculateNextNonce_eq, Hlatest.
  rewrite gapScan_step_free; [done|by apply not_sortedListContains|].
  rewrite RemovePendingNonce_completed. by case_decide.
Qed.

Lemma released_nonce_is_suggested_again_witness :
  sampleAddress ≠ zeroAddress
  ∧ NoDup (pendingOf (pendingKeeper [5; 6; 7]) sampleAddress)
  ∧ (nonceCacheKey sampleAddress 6
       ∉ evictList (completedNonces (pendingKeeper [5; 6; 7])))
  ∧ fst <$> CalculateNextNonce 1
              (RemovePendingNonce (pendingKeeper [5; 6; 7]) sampleAddress 6
                 false)
              (ledger 6) sampleAddress true
    = Some 6.
Proof.
  assert (sampleAddress ≠ zeroAddress) as H1 by by_decide.
  assert (NoDup (pendingOf (pendingKeeper [5; 6; 7]) sampleAddress)) as H2
    by by_decide.
  assert (nonceCacheKey sampleAddress 6
            ∉ evictList (completedNonces (pendingKeeper [5; 6; 7]))) as H3
    by by_decide.
  split; [exact H1|]. split; [exact H2|]. split; [exact H3|].
  exact (released_nonce_is_suggested_again 0 (pendingKeeper [5; 6; 7])
           (ledger 6) sampleAddress 6 H1 H2 H3 eq_refl).
Defined.

(** X9. A suggestion reserves nothing: [CalculateNextNonce] leaves the
    pending table as it is and the completed cache with the same keys, and
    asking again right away gives the same nonce. *)
Theorem suggestion_is_repeatable :
  ∀ (fuel : nat) (k : Keeper) (ctx : Context) (addr : Address)
    (includePending : bool) (r : N) (k' : Keeper),
    CalculateNextNonce fuel k ctx addr includePending = Some (r, k') →
    fst <$> CalculateNextNonce fuel k' ctx addr includePending = Some r
    ∧ pendingNonces k' = pendingNonces k
    ∧ ∀ key, key ∈ evictList (completedNonces k')
             ↔ key ∈ evictList (completedNonces k).
Proof.
  intros fuel k ctx addr [] r k' Hrun.
  - rewrite CalculateNextNonce_eq in Hrun.
    destruct (gapScan _ _ _ _ _) as [[n cn]|] eqn:Hscan; [|discriminate].
    injection Hrun as <- <-.
    pose proof (gapScan_Some _ _ _ _ _ _ _ Hscan)
      as (_ & _ & _ & _ & _ & _ & Hkeys).
    split; [|split; [done|exact Hkeys]].
    rewrite CalculateNextNonce_eq. unfold pendingOf. cbn [pendingNonces].
    fold (pendingOf k addr). cbn [completedNonces].
    pose proof (gapScan_ext fuel (pendingOf k addr) cn (completedNonces k)
                  addr (GetNonce ctx addr) Hkeys) as Hext.
    rewrite Hscan in Hext. cbn in Hext.
    destruct (gapScan fuel (pendingOf k addr) cn addr (GetNonce ctx addr))
      as [[n' cn'']|]; cbn in Hext |- *; congruence.
  - injection Hrun as <- <-. done.
Qed.

Lemma suggestion_is_repeatable_witness :
  CalculateNextNonce 5 gapKeeper (ledger 7) sampleAddress true
  = Some (11, mkKeeper (pendingNonces gapKeeper)
                (mkLRU 100000 [nonceCacheKey sampleAddress 9]))
  ∧ fst <$> CalculateNextNonce 5
              (mkKeeper (pendingNonces gapKeeper)
                 (mkLRU 100000 [nonceCacheKey sampleAddress 9]))
              (ledger 7) sampleAddress true
    = Some 11.
Proof.
  assert (CalculateNextNonce 5 gapKeeper (ledger 7) sampleAddress true
          = Some (11, mkKeeper (pendingNonces gapKeeper)
                        (mkLRU 100000 [nonceCacheKey sampleAddress 9])))
    as H1 by (vm_compute; reflexivity).
  split; [exact H1|].
  exact (proj1 (suggestion_is_repeatable 5 gapKeeper (ledger 7)
                  sampleAddress true 11 _ H1)).
Defined.

(** X10. With an ascending pending slice, the suggestion with
    [includePending = true] is the committed nonce, the answer of the
    call with [includePending = false], exactly when the committed nonce
    is neither pending for the address nor in the completed cache.  This
    covers an address without a slice and one with an empty slice. *)
Theorem suggestion_is_committed_iff_free :
  ∀ (fuel : nat) (k : Keeper) (ctx : Context) (addr : Address),
    Sorted N.le (pendingOf k addr) →
    fst <$> CalculateNextNonce (S fuel) k ctx addr true
    = fst <$> CalculateNextNonce (S fuel) k ctx addr false
    ↔ ¬ taken (pendingOf k addr) (completedNonces k) addr (GetNonce ctx addr).
Proof.
  intros fuel k ctx addr Hsorted.
  change (fst <$> CalculateNextNonce (S fuel) k ctx addr false)
    with (Some (GetNonce ctx addr)).
  rewrite CalculateNextNonce_eq. split.
  - destruct (gapScan _ _ _ _ _) as [[r cn']|] eqn:Hrun; [|discriminate].
    cbn. intros [= ->] Htaken.
    apply gapScan_Some in Hrun as (_ & _ & _ & Hfree & _).
    apply Hfree. by apply taken_blocked.
  - intros Hfree. rewrite gapScan_step_free; [done| |].
    + apply not_sortedListContains. intros Hin. apply Hfree. by left.
    + intros Hin. apply Hfree. by right.
Qed.

Lemma suggestion_is_committed_iff_free_witness :
  Sorted N.le (pendingOf gapKeeper sampleAddress)
  ∧ (fst <$> CalculateNextNonce 1 gapKeeper (ledger 7) sampleAddress true
     = fst <$> CalculateNextNonce 1 gapKeeper (ledger 7) sampleAddress false
     ↔ ¬ taken (pendingOf gapKeeper sampleAddress)
           (completedNonces gapKeeper) sampleAddress
           (GetNonce (ledger 7) sampleAddress))
  ∧ (fst <$> CalculateNextNonce 1 gapKeeper (ledger 9) sampleAddress true
     = fst <$> CalculateNextNonce 1 gapKeeper (ledger 9) sampleAddress false
     ↔ ¬ taken (pendingOf gapKeeper sampleAddress)
           (completedNonces gapKeeper) sampleAddress
           (GetNonce (ledger 9) sampleAddress))
  ∧ (fst <$> CalculateNextNonce 1 gapKeeper (ledger 11) sampleAddress true
     = fst <$> CalculateNextNonce 1 gapKeeper (ledger 11) sampleAddress false
     ↔ ¬ taken (pendingOf gapKeeper sampleAddress)
           (completedNonces gapKeeper) sampleAddress
           (GetNonce (ledger 11) sampleAddress))
  ∧ fst <$> CalculateNextNonce 1 gapKeeper (ledger 11) sampleAddress true
    = Some 11.
Proof.
  assert (Sorted N.le (pendingOf gapKeeper sampleAddress)) as H1
    by by_decide.
  split; [exact H1|].
  split; [exact (suggestion_is_committed_iff_free 0 gapKeeper (ledger 7)
                   sampleAddress H1)|].
  split; [exact (suggestion_is_committed_iff_free 0 gapKeeper (ledger 9)
                   sampleAddress H1)|].
  split; [exact (suggestion_is_committed_iff_free 0 gapKeeper (ledger 11)
                   sampleAddress H1)|].
  vm_compute. reflexivity.
Defined.

(** X11. The scan wraps around: when the committed nonce is the largest
    [uint64] and it is pending or completed, while 0 is neither, the
    suggestion is 0. *)
Theorem suggestion_wraps_to_zero :
  ∀ (fuel : nat) (k : Keeper) (ctx : Context) (addr : Address),
    GetNonce ctx addr = two64 - 1 →
    Sorted N.le (pendingOf k addr) →
    taken (pendingOf k addr) (completedNonces k) addr (two64 - 1) →
    ¬ taken (pendingOf k addr) (completedNonces k) addr 0 →
    fst <$> CalculateNextNonce (S (S fuel)) k ctx addr true = Some 0.
Proof.
  intros fuel k ctx addr Hlatest Hsorted Hmax Hzero.
  rewrite CalculateNextNonce_eq, Hlatest.
  assert (wrap64 (two64 - 1 + 1) = 0) as Hwrap by (vm_compute; reflexivity).
  assert (sortedListContains (pendingOf k addr) 0 = false) as Hp0.
  { apply not_sortedListContains. intros Hin. apply Hzero. by left. }
  assert (nonceCacheKey addr 0 ∉ evictList (completedNonces k)) as Hc0.
  { intros Hin. apply Hzero. by right. }
  destruct (sortedListContains (pendingOf k addr) (two64 - 1)) eqn:Hp.
  - rewrite gapScan_step_pending by done. rewrite Hwrap.
    by rewrite gapScan_step_free.
  - destruct Hmax as [Hin|Hin].
    { apply (sortedListContains_sorted _ _ Hsorted) in Hin. congruence. }
    rewrite gapScan_step_hit by done. rewrite Hwrap.
    rewrite gapScan_step_free; [done|done|by rewrite Contains_keys].
Qed.

Lemma suggestion_wraps_to_zero_witness :
  GetNonce (ledger (two64 - 1)) sampleAddress = two64 - 1
  ∧ Sorted N.le (pendingOf (pendingKeeper [5; two64 - 1]) sampleAddress)
  ∧ taken (pendingOf (pendingKeeper [5; two64 - 1]) sampleAddress)
      (completedNonces (pendingKeeper [5; two64 - 1])) sampleAddress
      (two64 - 1)
  ∧ ¬ taken (pendingOf (pendingKeeper [5; two64 - 1]) sampleAddress)
        (completedNonces (pendingKeeper [5; two64 - 1])) sampleAddress 0
  ∧ fst <$> CalculateNextNonce 2 (pendingKeeper [5; two64 - 1])
              (ledger (two64 - 1)) sampleAddress true
    = Some 0.
Proof.
  assert (Sorted N.le (pendingOf (pendingKeeper [5; two64 - 1])
                         sampleAddress)) as H1 by by_decide.
  assert (taken (pendingOf (pendingKeeper [5; two64 - 1]) sampleAddress)
            (completedNonces (pendingKeeper [5; two64 - 1])) sampleAddress
            (two64 - 1)) as H2 by (left; by_decide).
  assert (¬ taken (pendingOf (pendingKeeper [5; two64 - 1]) sampleAddress)
              (completedNonces (pendingKeeper [5; two64 - 1])) sampleAddress
              0) as H3.
  { intros [H|H]; revert H; by_decide. }
  split; [reflexivity|]. split; [exact H1|]. split; [exact H2|].
  split; [exact H3|].
  exact (suggestion_wraps_to_zero 0 (pendingKeeper [5; two64 - 1])
           (ledger (two64 - 1)) sampleAddress eq_refl H1 H2 H3).
Defined.

(** ** Invariants of the keeper *)

Section KeeperInvariant.

Implicit Types (c : LRU) (key : string).

Lemma touch_NoDup key (l : list string) :
  NoDup l → NoDup (key :: filter (λ k, k ≠ key) l).
Proof.
  intros Hnd. apply NoDup_cons. split; [|by apply NoDup_filter].
  rewrite list_elem_of_filter. intros [Hne _]. by apply Hne.
Qed.

Lemma touch_length key (l : list string) :
  key ∈ l → (length (key :: filter (λ k, k ≠ key) l) ≤ length l)%nat.
Proof.
  intros Hin. cbn [length].
  apply (length_filter_lt (λ k, k ≠ key)) in Hin; [lia|].
  intros Hne. by apply Hne.
Qed.

Lemma Contains_NoDup c key :
  NoDup (evictList c) → NoDup (evictList (Contains c key).2).
Proof.
  intros Hnd. unfold Contains. case_bool_decide; [|done].
  by apply touch_NoDup.
Qed.

Lemma Contains_length c key :
  (length (evictList (Contains c key).2) ≤ length (evictList c))%nat.
Proof.
  unfold Contains. case_bool_decide; [|done]. by apply touch_length.
Qed.

Lemma Add_NoDup c key :
  NoDup (evictList c) → NoDup (evictList (Add c key)).
Proof.
  intros Hnd. unfold Add. case_bool_decide as Hin; cbn [evictList].
  - by apply touch_NoDup.
  - apply NoDup_cons. split.
    + destruct (size c <=? N.of_nat (length (evictList c))); [|done].
      intros H. apply Hin. by eapply subseteq_take.
    + destruct (size c <=? N.of_nat (length (evictList c))); [|done].
      eapply sublist_NoDup; [exact Hnd|apply sublist_take].
Qed.

Lemma Add_length c key :
  0 < size c →
  N.of_nat (length (evictList c)) ≤ size c →
  N.of_nat (length (evictList (Add c key))) ≤ size c.
Proof.
  intros Hpos Hlen. unfold Add. case_bool_decide as Hin; cbn [evictList].
  - apply touch_length in Hin. lia.
  - destruct (N.leb_spec (size c) (N.of_nat (length (evictList c)))).
    + cbn [length]. rewrite length_take. lia.
    + cbn [length]. lia.
Qed.

Lemma gapScan_cache_inv (P : LRU → Prop) (fuel : nat) (pending : list N)
    (cn : LRU) (addr : Address) (n r : N) (cn' : LRU) :
  (∀ c key, P c → P (Contains c key).2) →
  P cn → gapScan fuel pending cn addr n = Some (r, cn') → P cn'.
Proof.
  intros Hstep. revert cn n.
  induction fuel as [|fuel IH]; intros cn n Hcn; [discriminate|].
  cbn [gapScan]. destruct (sortedListContains pending n); [by apply IH|].
  destruct (Contains cn (nonceCacheKey addr n)) as [hit cn1] eqn:Hc.
  assert (P cn1) as Hcn1.
  { replace cn1 with (Contains cn (nonceCacheKey addr n)).2
      by (by rewrite Hc). by apply Hstep. }
  destruct hit; [by apply IH|]. by intros [= _ <-].
Qed.

End KeeperInvariant.

(** X12. Every keeper that the operations produce from a new keeper has
    ascending pending slices and a completed cache of capacity 100000
    that holds no key twice and never more than 100000 keys. *)
Theorem reachable_keeperInvariant :
  ∀ k : Keeper, reachable k → keeperInvariant k.
Proof.
  intros k Hk. split; [by apply reachable_sortedPending|].
  induction Hk as [|k addr nonce _ IH|k addr nonce success _ IH
                   |k fuel ctx addr b r k' _ IH Hrun].
  - split; [done|]. split; [constructor|]. cbn. lia.
  - exact IH.
  - destruct IH as (Hsize & Hnd & Hlen).
    rewrite RemovePendingNonce_completed.
    case_decide; [done|]. destruct success; [|done].
    split; [by rewrite Add_size|]. split; [by apply Add_NoDup|].
    rewrite <- Hsize. apply Add_length; rewrite Hsize; [lia|done].
  - destruct b.
    + rewrite CalculateNextNonce_eq in Hrun.
      destruct (gapScan _ _ _ _ _) as [[n cn]|] eqn:Hscan; [|discriminate].
      injection Hrun as <- <-. cbn [completedNonces].
      apply (gapScan_cache_inv
               (λ c, size c = 100000 ∧ NoDup (evictList c)
                     ∧ N.of_nat (length (evictList c)) ≤ 100000)
               _ _ _ _ _ _ _) with (3 := Hscan); [|exact IH].
      intros c key (Hsize & Hnd & Hlen).
      split; [by rewrite Contains_size|].
      split; [by apply Contains_NoDup|].
      pose proof (Contains_length c key). lia.
    + injection Hrun as <- <-. exact IH.
Qed.

Lemma reachable_keeperInvariant_witness :
  reachable (RemovePendingNonce (AddPendingNonce emptyKeeper sampleAddress 6)
               sampleAddress 6 true)
  ∧ keeperInvariant
      (RemovePendingNonce (AddPendingNonce emptyKeeper sampleAddress 6)
         sampleAddress 6 true).
Proof.
  assert (reachable
            (RemovePendingNonce (AddPendingNonce emptyKeeper sampleAddress 6)
               sampleAddress 6 true)) as H1
    by (apply reachable_remove, reachable_add, reachable_new).
  split; [exact H1|].
  exact (reachable_keeperInvariant _ H1).
Defined.

(** ** Block hashes *)

Section BlockHashes.

Lemma BytesToHash_exact (b : list byte) :
  length b = HashLength → BytesToHash b = b.
Proof.
  intros Hlen. unfold BytesToHash. rewrite Hlen.
  rewrite Nat.ltb_irrefl, Hlen, Nat.sub_diag. reflexivity.
Qed.

End BlockHashes.

(** X13. [GetHashFn] gives no hash for a block that does not exist yet:
    for every height above the current block height, and for every height
    beyond the [int64] range, the answer is the zero hash, whatever the
    historical info holds. *)
Theorem GetHashFn_future_height :
  ∀ (ctx : HashContext) (height : N),
    (BlockHeight ctx < Z.of_N height ∨ maxInt64 < Z.of_N height)%Z →
    GetHashFn ctx height = emptyHash.
Proof.
  intros ctx height Hfuture. unfold GetHashFn.
  destruct (Z.ltb_spec maxInt64 (Z.of_N height)) as [|Hrange]; [done|].
  destruct Hfuture as [Hfuture|Hbig]; [|lia].
  destruct (Z.eqb_spec (BlockHeight ctx) (Z.of_N height)); [lia|].
  destruct (Z.ltb_spec (BlockHeight ctx) (Z.of_N height)); [done|lia].
Qed.

Lemma GetHashFn_future_height_witness :
  (BlockHeight (mkHashContext 10 [x07] (λ _, Some [x09])) < Z.of_N 11
   ∨ maxInt64 < Z.of_N 11)%Z
  ∧ GetHashFn (mkHashContext 10 [x07] (λ _, Some [x09])) 11 = emptyHash.
Proof.
  assert (BlockHeight (mkHashContext 10 [x07] (λ _, Some [x09])) < Z.of_N 11
          ∨ maxInt64 < Z.of_N 11)%Z as H1 by (left; by_decide).
  split; [exact H1|].
  exact (GetHashFn_future_height (mkHashContext 10 [x07] (λ _, Some [x09]))
           11 H1).
Defined.

(** X14. A 32-byte hash that the chain has for a height is answered
    unchanged: at the current height the header hash of the context, and
    below it the hash of the header in the historical info stored for that
    height. *)
Theorem GetHashFn_known_height :
  ∀ (ctx : HashContext) (height : N) (hash : list byte),
    (Z.of_N height ≤ maxInt64)%Z →
    length hash = HashLength →
    (BlockHeight ctx = Z.of_N height ∧ HeaderHash ctx = hash)
    ∨ ((Z.of_N height < BlockHeight ctx)%Z
       ∧ historicalHeaderHash ctx (Z.of_N height) = Some hash) →
    GetHashFn ctx height = hash.
Proof.
  intros ctx height hash Hrange Hlen Hknown. unfold GetHashFn.
  destruct (Z.ltb_spec maxInt64 (Z.of_N height)); [lia|].
  destruct Hknown as [[Hcur Hhash]|[Hpast Hhist]].
  - rewrite Hcur, Z.eqb_refl, Hhash. by apply BytesToHash_exact.
  - destruct (Z.eqb_spec (BlockHeight ctx) (Z.of_N height)); [lia|].
    destruct (Z.ltb_spec (BlockHeight ctx) (Z.of_N height)); [lia|].
    unfold getHistoricalHash. rewrite Hhist. by apply BytesToHash_exact.
Qed.

Lemma GetHashFn_known_height_witness :
  (Z.of_N 3 ≤ maxInt64)%Z
  ∧ length (repeat x09 32) = HashLength
  ∧ ((BlockHeight (mkHashContext 10 [x07] (λ _, Some (repeat x09 32)))
      = Z.of_N 3
      ∧ HeaderHash (mkHashContext 10 [x07] (λ _, Some (repeat x09 32)))
        = repeat x09 32)
     ∨ ((Z.of_N 3
         < BlockHeight (mkHashContext 10 [x07] (λ _, Some (repeat x09 32))))%Z
        ∧ historicalHeaderHash
            (mkHashContext 10 [x07] (λ _, Some (repeat x09 32))) (Z.of_N 3)
          = Some (repeat x09 32)))
  ∧ GetHashFn (mkHashContext 10 [x07] (λ _, Some (repeat x09 32))) 3
    = repeat x09 32.
Proof.
  assert (Z.of_N 3 ≤ maxInt64)%Z as H1 by by_decide.
  assert (length (repeat x09 32) = HashLength) as H2 by reflexivity.
  assert ((BlockHeight (mkHashContext 10 [x07] (λ _, Some (repeat x09 32)))
           = Z.of_N 3
           ∧ HeaderHash (mkHashContext 10 [x07] (λ _, Some (repeat x09 32)))
             = repeat x09 32)
          ∨ ((Z.of_N 3
              < BlockHeight
                  (mkHashContext 10 [x07] (λ _, Some (repeat x09 32))))%Z
             ∧ historicalHeaderHash
                 (mkHashContext 10 [x07] (λ _, Some (repeat x09 32)))
                 (Z.of_N 3)
               = Some (repeat x09 32))) as H3.
  { right. split; [by_decide|reflexivity]. }
  split; [exact H1|]. split; [exact H2|]. split; [exact H3|].
  exact (GetHashFn_known_height _ 3 (repeat x09 32) H1 H2 H3).
Defined.

(** ** Purging a store *)

Section Purge.

Context {S : Type} `{KVStore S}.

Lemma foldl_snoc_keys (keys acc : list (list byte)) :
  foldl (λ keys key, keys ++ [key]) acc keys = acc ++ keys.
Proof.
  revert acc. induction keys as [|key keys IH]; intros acc; cbn [foldl].
  - by rewrite app_nil_r.
  - by rewrite IH, <- app_assoc.
Qed.

Lemma storeHas_foldl_delete (keys : list (list byte)) (store : S)
    (key : list byte) :
  lawfulKVStore S →
  storeHas (foldl (λ st k, storeDelete st k) store keys) key = true
  ↔ storeHas store key = true ∧ key ∉ keys.
Proof.
  intros [_ Hdelete]. revert store.
  induction keys as [|k keys IH]; intros store; cbn [foldl].
  - split; [intros ?; split; [done|apply not_elem_of_nil]|by intros [? _]].
  - rewrite IH, Hdelete, not_elem_of_cons. tauto.
Qed.

End Purge.

(** X15. [PurgePrefix] leaves nothing in the store it purges: for every
    store whose iterator visits exactly the keys it has and whose delete
    takes out its key and no other, the store after [PurgePrefix] has no
    key, and an iterator over it visits nothing. *)
Theorem PurgePrefix_empties_store :
  ∀ (S : Type) (ops : KVStore S),
    lawfulKVStore S →
    ∀ store : S,
      (∀ key : list byte, storeHas (PurgePrefix store) key = false)
      ∧ storeIteratorKeys (PurgePrefix store) = [].
Proof.
  intros S ops Hlaws store.
  assert (∀ key : list byte, storeHas (PurgePrefix store) key = false)
    as Hnone.
  { intros key. apply not_true_is_false. unfold PurgePrefix.
    rewrite foldl_snoc_keys, app_nil_l.
    rewrite (storeHas_foldl_delete _ _ _ Hlaws).
    intros [Hhas Hnot]. apply Hnot. by apply (proj1 Hlaws). }
  split; [exact Hnone|].
  destruct (storeIteratorKeys (PurgePrefix store)) as [|key keys] eqn:Hkeys;
    [done|].
  assert (storeHas (PurgePrefix store) key = true) as Hhas.
  { apply (proj1 Hlaws). rewrite Hkeys. constructor. }
  by rewrite Hnone in Hhas.
Qed.

Lemma PurgePrefix_empties_store_witness :
  @lawfulKVStore (gmap (list byte) (list byte)) mapStore
  ∧ (∀ key : list byte,
        @storeHas _ mapStore
          (@PurgePrefix _ mapStore
             (<[ [x01; x02] := [x0a] ]> (<[ [x02] := [x0b] ]> ∅))) key
        = false)
  ∧ @storeHas _ mapStore (<[ [x01; x02] := [x0a] ]> (<[ [x02] := [x0b] ]> ∅))
      [x02] = true
  ∧ @PurgePrefix _ mapStore
      (<[ [x01; x02] := [x0a] ]> (<[ [x02] := [x0b] ]> ∅)) = ∅.
Proof.
  assert (@lawfulKVStore (gmap (list byte) (list byte)) mapStore) as H1.
  { split.
    - intros m key. cbn [storeHas storeIteratorKeys mapStore].
      rewrite bool_decide_eq_true. split.
      + intros ([key' v] & -> & Hin)%list_elem_of_fmap.
        apply elem_of_map_to_list in Hin. by eexists.
      + intros [v Hv]. apply list_elem_of_fmap. exists (key, v).
        split; [done|]. by apply elem_of_map_to_list.
    - intros m k key. cbn [storeHas storeDelete mapStore].
      rewrite !bool_decide_eq_true, lookup_delete.
      case_decide as Heq.
      + split; [by intros [? ?]|]. intros [_ Hne]. by destruct Hne.
      + split; [done|by intros [? _]]. }
  split; [exact H1|].
  split; [exact (proj1 (PurgePrefix_empties_store _ mapStore H1 _))|].
  split; vm_compute; reflexivity.
Defined.

(** ** Transaction indices *)

(** X16. [GetEVMTxIndices] returns the indices in the order in which
    [AppendToEVMTxIndices] received them, after those that were there; and
    after [ClearEVMTxIndices] only the ones appended since. *)
Theorem evmTxIndices_in_append_order :
  ∀ (old idxs : list Z),
    GetEVMTxIndices (foldl AppendToEVMTxIndices old idxs) = old ++ idxs
    ∧ GetEVMTxIndices
        (foldl AppendToEVMTxIndices (ClearEVMTxIndices old) idxs)
      = idxs.
Proof.
  assert (∀ idxs old : list Z,
            foldl AppendToEVMTxIndices old idxs = old ++ idxs) as Hfold.
  { induction idxs as [|idx idxs IH]; intros old; cbn [foldl].
    - by rewrite app_nil_r.
    - rewrite IH. unfold AppendToEVMTxIndices. by rewrite <- app_assoc. }
  intros old idxs. unfold GetEVMTxIndices. rewrite !Hfold. done.
Qed.
